(** * StableEvaluationAtAPoint: the numerical core over exact real arithmetic

    Shallow embedding of
    [developers/StableEvaluationAtAPoint/mastersolution/stableevaluationatapoint.h].

    A C++ [double] is modelled by a real number of the Standard Library:
    rounding is not modelled, every statement below is about the formulas the
    code evaluates.  [Eigen::Vector2d] is a pair of reals.  A failed
    [LF_ASSERT_MSG] ends the evaluation, which is modelled by the error
    monad [outcome]. *)

From Stdlib Require Import Reals Lra List String Bool Permutation.
Import ListNotations.

Local Open Scope R_scope.

(** ** The error monad of a call that can be aborted *)

Inductive outcome (A : Type) : Type :=
| Return (a : A)
| Abort (msg : string).

Arguments Return {A} a.
Arguments Abort {A} msg.

Definition bind {A B : Type} (c : outcome A) (k : A -> outcome B) : outcome B :=
  match c with
  | Return a => k a
  | Abort msg => Abort msg
  end.

Declare Scope outcome_scope.
Delimit Scope outcome_scope with outcome.
Notation "x <- c ;; k" := (bind c (fun x => k))
  (at level 61, c at next level, right associativity) : outcome_scope.
Notation "c ;;; k" := (bind c (fun _ => k))
  (at level 61, right associativity) : outcome_scope.
Local Open Scope outcome_scope.

(** Modelled from the spec: the macro [LF_ASSERT_MSG] of LehrFEM++ is not
    part of the sources.  The spec calls a failed assertion a fatal
    precondition violation that aborts the current evaluation; a true
    condition lets the evaluation go on. *)
Definition LF_ASSERT_MSG (cond : bool) (msg : string) : outcome unit :=
  if cond then Return tt else Abort msg.

(** ** Comparisons of doubles as boolean tests *)

Definition Rlt_b (a b : R) : bool := if Rlt_dec a b then true else false.
Definition Rgt_b (a b : R) : bool := if Rgt_dec a b then true else false.
Definition Rle_b (a b : R) : bool := if Rle_dec a b then true else false.
Definition Rge_b (a b : R) : bool := if Rge_dec a b then true else false.
Definition Rneq_b (a b : R) : bool := if Req_dec_T a b then false else true.

(** ** Eigen::Vector2d *)

Definition Vector2d : Type := (R * R)%type.

(** [v(0)] and [v(1)] *)
Definition coeff (v : Vector2d) (i : nat) : R :=
  match i with
  | O => fst v
  | _ => snd v
  end.

Definition vadd (a b : Vector2d) : Vector2d := (fst a + fst b, snd a + snd b).
Definition vsub (a b : Vector2d) : Vector2d := (fst a - fst b, snd a - snd b).
Definition vopp (a : Vector2d) : Vector2d := (- fst a, - snd a).
Definition vscale (s : R) (a : Vector2d) : Vector2d := (s * fst a, s * snd a).
Definition dot (a b : Vector2d) : R := fst a * fst b + snd a * snd b.
Definition norm (a : Vector2d) : R := sqrt (fst a * fst a + snd a * snd a).

(** [x != y] on Eigen vectors: some coefficient differs. *)
Definition vneq (a b : Vector2d) : bool :=
  Rneq_b (fst a) (fst b) || Rneq_b (snd a) (snd b).

Declare Scope vec_scope.
Delimit Scope vec_scope with vec.
Bind Scope vec_scope with Vector2d.
Notation "a +v b" := (vadd a b) (at level 50, left associativity) : vec_scope.
Notation "a -v b" := (vsub a b) (at level 50, left associativity) : vec_scope.
Notation "s *v a" := (vscale s a) (at level 40, left associativity) : vec_scope.
Local Open Scope vec_scope.

(** ** The fundamental solution and its gradient (lines 43-66) *)

Definition M_PI : R := PI.

(** The value computed on line 49. *)
Definition G_res (x y : Vector2d) : R :=
  (-1.0 / (2 * M_PI)) * ln (norm (x -v y)).

Definition G (x y : Vector2d) : outcome R :=
  LF_ASSERT_MSG (vneq x y) "G not defined for these coordinates!" ;;;
  let res := G_res x y in
  Return res.

(** The value computed on line 62. *)
Definition gradG_res (x y : Vector2d) : Vector2d :=
  (-1.0 / (2 * M_PI * norm (x -v y))) *v (x -v y).

Definition gradG (x y : Vector2d) : outcome Vector2d :=
  LF_ASSERT_MSG (vneq x y) "G not defined for these coordinates!" ;;;
  let res := gradG_res x y in
  Return res.

(** ** What the code asks of the finite-element library

    LehrFEM++ is an external library: only the queries the code makes are
    modelled, and what they answer is data of the mesh. *)

Inductive RefElType : Type := kPoint | kSegment | kTria | kQuad.

Definition RefElType_eqb (a b : RefElType) : bool :=
  match a, b with
  | kPoint, kPoint | kSegment, kSegment | kTria, kTria | kQuad, kQuad => true
  | _, _ => false
  end.

(** An [Eigen::MatrixXd] with two rows: [m i j] is [m(i,j)]. *)
Definition MatrixXd : Type := nat -> nat -> R.

Record Geometry : Type := {
  Corners : MatrixXd;                      (* one corner per column *)
  Volume : R;
  GlobalPoint : Vector2d -> Vector2d;      (* image of one reference point *)
  IntegrationElementAt : Vector2d -> R     (* Gram determinant at one reference point *)
}.

(** [geo.Global(local)] and [geo.IntegrationElement(local)] work on the
    columns of [local] one by one. *)
Definition Global (geo : Geometry) (local : list Vector2d) : list Vector2d :=
  map (GlobalPoint geo) local.
Definition IntegrationElement (geo : Geometry) (local : list Vector2d) : list R :=
  map (IntegrationElementAt geo) local.

Record Entity : Type := {
  Index : nat;                             (* [mesh->Index(entity)] *)
  RefEl : RefElType;
  Geometry_ptr : option Geometry           (* [None] is the null pointer *)
}.

Record Mesh : Type := {
  Entities : nat -> list Entity;           (* by co-dimension *)
  (* the data set built by [lf::mesh::utils::flagEntitiesOnBoundary(mesh, codim)] *)
  flagEntitiesOnBoundary : nat -> Entity -> bool
}.

Record QuadRule : Type := {
  Points : list Vector2d;                  (* one reference point per column *)
  Weights : list R;
  NumPoints : nat
}.

Record FeSpaceLagrangeO1 : Type := { FeSpace_Mesh : Mesh }.

(** ** Boundary potentials by the midpoint rule (lines 68-153) *)

(** Lines 92-94 and 129-131. *)
Definition edge_midpoint (corners : MatrixXd) : Vector2d :=
  (0.5 * (corners 0%nat 0%nat + corners 0%nat 1%nat),
   0.5 * (corners 1%nat 0%nat + corners 1%nat 1%nat)).

Fixpoint PSL_loop (edge_pred : Entity -> bool) (v : Vector2d -> R) (x : Vector2d)
    (edges : list Entity) (PSLval : R) : outcome R :=
  match edges with
  | [] => Return PSLval
  | e :: rest =>
      if edge_pred e then
        match Geometry_ptr e with
        | None => Abort "Missing geometry!"
        | Some geo =>
            let corners := Corners geo in
            let midpoint := edge_midpoint corners in
            g <- G x midpoint ;;
            PSL_loop edge_pred v x rest (PSLval + v midpoint * g * Volume geo)
        end
      else PSL_loop edge_pred v x rest PSLval
  end.

Definition PSL (mesh : Mesh) (v : Vector2d -> R) (x : Vector2d) : outcome R :=
  let PSLval := 0.0 in
  let bd_flags_edge := flagEntitiesOnBoundary mesh 1 in
  let edge_pred := fun edge => bd_flags_edge edge in
  PSL_loop edge_pred v x (Entities mesh 1) PSLval.

(** Lines 133-145: the normal [n] of the unit square chosen for a midpoint. *)
Definition PDL_n (midpoint : Vector2d) : Vector2d :=
  if Rgt_b (coeff midpoint 0) (coeff midpoint 1)
     && Rlt_b (coeff midpoint 0) (1.0 - coeff midpoint 1) then
    (0.0, -1.0)
  else if Rgt_b (coeff midpoint 0) (coeff midpoint 1)
          && Rgt_b (coeff midpoint 0) (1.0 - coeff midpoint 1) then
    (1.0, 0.0)
  else if Rlt_b (coeff midpoint 0) (coeff midpoint 1)
          && Rgt_b (coeff midpoint 0) (1.0 - coeff midpoint 1) then
    (0.0, 1.0)
  else
    (-1.0, 0.0).

Fixpoint PDL_loop (edge_pred : Entity -> bool) (v : Vector2d -> R) (x : Vector2d)
    (edges : list Entity) (PDLval : R) : outcome R :=
  match edges with
  | [] => Return PDLval
  | e :: rest =>
      if edge_pred e then
        match Geometry_ptr e with
        | None => Abort "Missing geometry!"
        | Some geo =>
            let corners := Corners geo in
            let midpoint := edge_midpoint corners in
            let n := PDL_n midpoint in
            gg <- gradG x midpoint ;;
            PDL_loop edge_pred v x rest
              (PDLval + v midpoint * dot gg n * Volume geo)
        end
      else PDL_loop edge_pred v x rest PDLval
  end.

Definition PDL (mesh : Mesh) (v : Vector2d -> R) (x : Vector2d) : outcome R :=
  let PDLval := 0.0 in
  let bd_flags_edge := flagEntitiesOnBoundary mesh 1 in
  let edge_pred := fun edge => bd_flags_edge edge in
  PDL_loop edge_pred v x (Entities mesh 1) PDLval.

(** ** The verification helper (lines 155-202) *)

Definition pointEval_u (x : Vector2d) : R :=
  let one := (1.0, 0.0) in
  ln (norm (x +v one)).

Definition pointEval_gradu (x : Vector2d) : Vector2d :=
  let one := (1.0, 0.0) in
  (1.0 / norm (x +v one)) *v (x +v one).

(** Lines 177-189: the normal [n] inside the functor [dotgradu_n]. *)
Definition dotgradu_n_normal (x : Vector2d) : Vector2d :=
  if Rgt_b (coeff x 0) (coeff x 1) && Rlt_b (coeff x 0) (1.0 - coeff x 1) then
    (0.0, -1.0)
  else if Rgt_b (coeff x 0) (coeff x 1) && Rgt_b (coeff x 0) (1.0 - coeff x 1) then
    (1.0, 0.0)
  else if Rlt_b (coeff x 0) (coeff x 1) && Rgt_b (coeff x 0) (1.0 - coeff x 1) then
    (0.0, 1.0)
  else
    (-1.0, 0.0).

Definition dotgradu_n (x : Vector2d) : R :=
  let n := dotgradu_n_normal x in
  dot (pointEval_gradu x) n.

Definition pointEval (mesh : Mesh) : outcome R :=
  let x := (0.3, 0.4) in
  psl <- PSL mesh dotgradu_n x ;;
  pdl <- PDL mesh pointEval_u x ;;
  let rhs := psl - pdl in
  let error := Rabs (pointEval_u x - rhs) in
  Return error.

(** ** The cutoff function (lines 204-249) *)

Definition half : Vector2d := (0.5, 0.5).
Definition constant : R := M_PI / (0.5 * sqrt 2 - 1.0).

(** The three assignments of the last branch (lines 227-244): value,
    gradient and Laplacian on the annulus. *)
Definition Psi_annulus (y : Vector2d) : R * Vector2d * R :=
  let Psi_xy :=
    cos (constant * (norm (y -v half) - 0.5))
    * cos (constant * (norm (y -v half) - 0.5)) in
  let gradPsi :=
    (2 * cos (constant * (norm (y -v half) - 0.5))
       * (-1.0) * sin (constant * (norm (y -v half) - 0.5))
       * constant * (1.0 / norm (y -v half))) *v (y -v half) in
  let laplPsi :=
    2 * constant * constant * (1.0 / (norm (y -v half) * norm (y -v half)))
      * dot (y -v half) (y -v half)
      * (sin (constant * (norm (y -v half) - 0.5))
         * sin (constant * (norm (y -v half) - 0.5))
         - cos (constant * (norm (y -v half) - 0.5))
           * cos (constant * (norm (y -v half) - 0.5)))
    - 2 * constant * (1.0 / norm (y -v half))
      * cos (constant * (norm (y -v half) - 0.5))
      * sin (constant * (norm (y -v half) - 0.5)) in
  (Psi_xy, gradPsi, laplPsi).

(** The body of [Psi]: the local [Psi_xy] and the function's own
    [gradPsi] and [laplPsi] when the return statement is reached. *)
Definition Psi_body (y : Vector2d) (gradPsi : Vector2d) (laplPsi : R)
    : R * Vector2d * R :=
  if Rle_b (norm (y -v half)) (0.25 * sqrt 2) then
    (0.0, (0.0, 0.0), 0.0)
  else if Rge_b (norm (y -v half)) 0.5 then
    (1.0, (0.0, 0.0), 0.0)
  else
    Psi_annulus y.

(** A call [Psi(y, gradPsi, laplPsi)].  The parameters are declared
    [Eigen::Vector2d gradPsi] and [double laplPsi]: both are passed by value,
    so the body assigns to copies that die with the call.  The call gives
    the returned double, and the caller's two objects as they are after the
    call, which is as they were before it. *)
Definition Psi (y : Vector2d) (gradPsi : Vector2d) (laplPsi : R)
    : R * (Vector2d * R) :=
  let '(Psi_xy, _, _) := Psi_body y gradPsi laplPsi in
  (Psi_xy, (gradPsi, laplPsi)).

(** ** The regularized functional and its driver (lines 251-320) *)

(** What a freshly declared [Eigen::Vector2d] and a freshly constructed
    [Eigen::VectorXd] hold: Eigen initializes neither. *)
Record Uninitialized : Type := {
  fresh_Vector2d : Vector2d;
  fresh_VectorXd : nat -> R
}.

Section Jstar.

(** The rule [lf::quad::make_TriaQR_MidpointRule()] of the library. *)
Variable make_TriaQR_MidpointRule : QuadRule.

(** The content of the storage obtained in iteration [l] of the inner loop
    for the cell number [i]. *)
Variable storage : nat -> nat -> Uninitialized.

Fixpoint Jstar_quad_loop (u : Vector2d -> R) (x : Vector2d)
    (zeta : list Vector2d) (w_ref gram_dets : list R)
    (i : nat) (ls : list nat) (val : R) : outcome R :=
  match ls with
  | [] => Return val
  | l :: rest =>
      let gradPsi := fresh_Vector2d (storage i l) in
      let laplPsi := fresh_VectorXd (storage i l) in
      let zeta_l := nth l zeta (0, 0) in
      let '(_, (gradPsi, laplPsi_l)) := Psi zeta_l gradPsi (laplPsi l) in
      gg <- gradG x zeta_l ;;
      g <- G x zeta_l ;;
      Jstar_quad_loop u x zeta w_ref gram_dets i rest
        (val - nth l w_ref 0 * u zeta_l
               * (2 * dot gg gradPsi + g * laplPsi_l)
               * nth l gram_dets 0)
  end.

Fixpoint Jstar_cell_loop (zeta_ref : list Vector2d) (w_ref : list R) (P : nat)
    (u : Vector2d -> R) (x : Vector2d)
    (i : nat) (cells : list Entity) (val : R) : outcome R :=
  match cells with
  | [] => Return val
  | entity :: rest =>
      LF_ASSERT_MSG (RefElType_eqb (RefEl entity) kTria) "Not on triangular mesh!" ;;;
      (* [*entity->Geometry()] is dereferenced unchecked: a null pointer
         ends the run *)
      match Geometry_ptr entity with
      | None => Abort "null geometry"
      | Some geo =>
          let zeta := Global geo zeta_ref in
          let gram_dets := IntegrationElement geo zeta_ref in
          val' <- Jstar_quad_loop u x zeta w_ref gram_dets i (seq 0 P) val ;;
          Jstar_cell_loop zeta_ref w_ref P u x (S i) rest val'
      end
  end.

Definition Jstar (fe_space : FeSpaceLagrangeO1) (u : Vector2d -> R)
    (x : Vector2d) : outcome R :=
  let val := 0.0 in
  let mesh := FeSpace_Mesh fe_space in
  let qr := make_TriaQR_MidpointRule in
  let zeta_ref := Points qr in
  let w_ref := Weights qr in
  let P := NumPoints qr in
  Jstar_cell_loop zeta_ref w_ref P u x 0 (Entities mesh 0) val.

(** [stab_pointEval] gives the lines written to [std::cerr] and the
    returned double. *)
Definition stab_pointEval (fe_space : FeSpaceLagrangeO1) (u : Vector2d -> R)
    (x : Vector2d) : list string * outcome R :=
  let res := 0.0 in
  if Rle_b (norm (x -v half)) 0.25 then
    ([], res <- Jstar fe_space u x ;; Return res)
  else
    (["The point does not fulfill the assumptions"%string], Return res).

End Jstar.

(** ** The statements of the specification, in its own words *)

(** The gradient of [G] with respect to [x] as the specification writes it:
    [-(1/(2 pi |x-y|^2)) (x-y)]. *)
Definition gradG_spec (x y : Vector2d) : Vector2d :=
  (- (1 / (2 * PI * (norm (x -v y) * norm (x -v y))))) *v (x -v y).

(** The four open sectors cut out of the unit square by its two diagonals
    [x1 = x0] and [x1 = 1 - x0], and the outward normal of each. *)
Inductive Sector : Type := Bottom | Right | Top | Left.

Definition in_sector (m : Vector2d) (s : Sector) : Prop :=
  match s with
  | Bottom => snd m < fst m /\ snd m < 1 - fst m
  | Right => snd m < fst m /\ snd m > 1 - fst m
  | Top => snd m > fst m /\ snd m > 1 - fst m
  | Left => snd m > fst m /\ snd m < 1 - fst m
  end.

Definition outward_normal (s : Sector) : Vector2d :=
  match s with
  | Bottom => (0, -1)
  | Right => (1, 0)
  | Top => (0, 1)
  | Left => (-1, 0)
  end.

Definition on_diagonal (p : Vector2d) : Prop :=
  fst p = snd p \/ fst p = 1 - snd p.

Definition Rsum (l : list R) : R := fold_right Rplus 0 l.

(** The geometries of the flagged edges that have one, in mesh order. *)
Definition flagged_geometries (edge_pred : Entity -> bool) (edges : list Entity)
    : list Geometry :=
  flat_map
    (fun e =>
       if edge_pred e then
         match Geometry_ptr e with
         | Some geo => [geo]
         | None => []
         end
       else [])
    edges.

Definition boundary_geometries (mesh : Mesh) : list Geometry :=
  flagged_geometries (flagEntitiesOnBoundary mesh 1) (Entities mesh 1).

(** Every flagged edge has a geometry and [x] is the midpoint of none. *)
Definition off_midpoints (edge_pred : Entity -> bool) (edges : list Entity)
    (x : Vector2d) : Prop :=
  Forall
    (fun e =>
       edge_pred e = true ->
       exists geo, Geometry_ptr e = Some geo /\ x <> edge_midpoint (Corners geo))
    edges.

Definition off_boundary_midpoints (mesh : Mesh) (x : Vector2d) : Prop :=
  off_midpoints (flagEntitiesOnBoundary mesh 1) (Entities mesh 1) x.

(** The contribution of one boundary edge to the two potentials. *)
Definition PSL_integrand (v : Vector2d -> R) (x : Vector2d) (geo : Geometry) : R :=
  let midpoint := edge_midpoint (Corners geo) in
  v midpoint * G_res x midpoint * Volume geo.

Definition PDL_integrand (v : Vector2d -> R) (x : Vector2d) (geo : Geometry) : R :=
  let midpoint := edge_midpoint (Corners geo) in
  v midpoint * dot (gradG_res x midpoint) (PDL_n midpoint) * Volume geo.

(** The midpoint of a boundary edge, from the two corners that its geometry
    reports: half the sum of the corners, coordinate by coordinate. *)
Definition segment_midpoint (geo : Geometry) : Vector2d :=
  ((Corners geo 0%nat 0%nat + Corners geo 0%nat 1%nat) / 2,
   (Corners geo 1%nat 0%nat + Corners geo 1%nat 1%nat) / 2).

(** Every flagged edge has a geometry and [x] is the midpoint of the two
    corners of none. *)
Definition off_segment_midpoints (mesh : Mesh) (x : Vector2d) : Prop :=
  Forall
    (fun e =>
       flagEntitiesOnBoundary mesh 1 e = true ->
       exists geo, Geometry_ptr e = Some geo /\ x <> segment_midpoint geo)
    (Entities mesh 1).

(** The integrand of the double-layer potential on one boundary edge whose
    midpoint lies in the sector [s]: the datum at the midpoint, times the
    gradient of the kernel at the midpoint against the outward normal of
    [s], times the length of the edge. *)
Definition PDL_sector_integrand (v : Vector2d -> R) (x : Vector2d)
    (gs : Geometry * Sector) : R :=
  v (segment_midpoint (fst gs))
  * dot (gradG_res x (segment_midpoint (fst gs))) (outward_normal (snd gs))
  * Volume (fst gs).

(** The sum that the specification gives for [Jstar], for a rule with the
    single reference point [zeta0] of weight [w0]: the gradient and the
    Laplacian of the cutoff are those that the body of [Psi] computes at the
    mapped point. *)
Definition Jstar_spec_term (w0 : R) (zeta0 : Vector2d) (u : Vector2d -> R)
    (x : Vector2d) (geo : Geometry) : R :=
  let point := GlobalPoint geo zeta0 in
  let '(_, gradPsi, laplPsi) := Psi_body point (0, 0) 0 in
  - (w0 * IntegrationElementAt geo zeta0 * u point
     * (2 * dot (gradG_res x point) gradPsi + G_res x point * laplPsi)).

Definition Jstar_spec (w0 : R) (zeta0 : Vector2d) (cells : list Geometry)
    (u : Vector2d -> R) (x : Vector2d) : R :=
  Rsum (map (Jstar_spec_term w0 zeta0 u x) cells).

(** ** A mesh of the unit square to evaluate the code on

    Two triangles [(0,0),(1,0),(1,1)] and [(0,0),(1,1),(0,1)]; the four sides
    of the square are the edges 0 to 3, the diagonal is the edge 4. *)
Module Fixture.

Definition columns (cs : list Vector2d) : MatrixXd :=
  fun i j => coeff (nth j cs (0, 0)) i.

Definition segment (a b : Vector2d) (len : R) : Geometry :=
  {| Corners := columns [a; b];
     Volume := len;
     GlobalPoint := fun xi => a +v (fst xi *v (b -v a));
     IntegrationElementAt := fun _ => len |}.

Definition triangle (a b c : Vector2d) (det : R) : Geometry :=
  {| Corners := columns [a; b; c];
     Volume := det / 2;
     GlobalPoint := fun xi => a +v (fst xi *v (b -v a)) +v (snd xi *v (c -v a));
     IntegrationElementAt := fun _ => det |}.

Definition lower : Geometry := triangle (0, 0) (1, 0) (1, 1) 1.
Definition upper : Geometry := triangle (0, 0) (1, 1) (0, 1) 1.

Definition cells : list Entity :=
  [ {| Index := 0; RefEl := kTria; Geometry_ptr := Some lower |};
    {| Index := 1; RefEl := kTria; Geometry_ptr := Some upper |} ].

Definition edges : list Entity :=
  [ {| Index := 0; RefEl := kSegment; Geometry_ptr := Some (segment (0, 0) (1, 0) 1) |};
    {| Index := 1; RefEl := kSegment; Geometry_ptr := Some (segment (1, 0) (1, 1) 1) |};
    {| Index := 2; RefEl := kSegment; Geometry_ptr := Some (segment (1, 1) (0, 1) 1) |};
    {| Index := 3; RefEl := kSegment; Geometry_ptr := Some (segment (0, 1) (0, 0) 1) |};
    {| Index := 4; RefEl := kSegment;
       Geometry_ptr := Some (segment (0, 0) (1, 1) (sqrt 2)) |} ].

Definition square : Mesh :=
  {| Entities := fun codim =>
       match codim with
       | O => cells
       | S O => edges
       | _ => []
       end;
     flagEntitiesOnBoundary := fun codim e =>
       Nat.eqb codim 1 && Nat.ltb (Index e) 4 |}.

Definition fe_space : FeSpaceLagrangeO1 := {| FeSpace_Mesh := square |}.

(** The one-point rule on the reference triangle: the barycentre with the
    area of the triangle as weight. *)
Definition midpoint_rule : QuadRule :=
  {| Points := [(1 / 3, 1 / 3)]; Weights := [1 / 2]; NumPoints := 1 |}.

(** Storage that happens to hold a zero vector and ones. *)
Definition stale : nat -> nat -> Uninitialized :=
  fun _ _ => {| fresh_Vector2d := (0, 0); fresh_VectorXd := fun _ => 1 |}.

Definition zero_field : Vector2d -> R := fun _ => 0.
Definition unit_field : Vector2d -> R := fun _ => 1.

End Fixture.

(** ** The mesh size (lines 23-41) *)

(** [m.col(j)] of a matrix with two rows. *)
Definition col (m : MatrixXd) (j : nat) : Vector2d := (m 0%nat j, m 1%nat j).

Fixpoint getMeshSize_loop (edges : list Entity) (mesh_size : R) : outcome R :=
  match edges with
  | [] => Return mesh_size
  | edge :: rest =>
      (* [*(edge->Geometry())] is dereferenced unchecked: a null pointer
         ends the run *)
      match Geometry_ptr edge with
      | None => Abort "null geometry"
      | Some geo =>
          let endpoints := Corners geo in
          let edge_length := norm (col endpoints 0 -v col endpoints 1) in
          if Rlt_b mesh_size edge_length then
            getMeshSize_loop rest edge_length
          else
            getMeshSize_loop rest mesh_size
      end
  end.

Definition getMeshSize (mesh_p : Mesh) : outcome R :=
  let mesh_size := 0.0 in
  getMeshSize_loop (Entities mesh_p 1) mesh_size.

(** ** Further notions used by the properties below *)

(** The distance of the two corners of an edge geometry. *)
Definition corner_distance (geo : Geometry) : R :=
  norm (col (Corners geo) 0 -v col (Corners geo) 1).

(** The geometries of a list of entities that all have one. *)
Definition all_geometries (entities : list Entity) (geos : list Geometry) : Prop :=
  map Geometry_ptr entities = map Some geos.

(** The radial profile of the cutoff on the annulus and the two functions
    that the code uses as its first and second derivative. *)
Definition Psi_profile (r : R) : R :=
  cos (constant * (r - 0.5)) * cos (constant * (r - 0.5)).

Definition Psi_profile_d1 (r : R) : R :=
  2 * cos (constant * (r - 0.5)) * (-1.0) * sin (constant * (r - 0.5)) * constant.

Definition Psi_profile_d2 (r : R) : R :=
  2 * constant * constant
  * (sin (constant * (r - 0.5)) * sin (constant * (r - 0.5))
     - cos (constant * (r - 0.5)) * cos (constant * (r - 0.5))).

(** The same mesh with its entities enumerated in the opposite order. *)
Definition reversed (mesh : Mesh) : Mesh :=
  {| Entities := fun codim => rev (Entities mesh codim);
     flagEntitiesOnBoundary := flagEntitiesOnBoundary mesh |}.

(** Storage that happens to hold zeros only. *)
Definition zeroed : nat -> nat -> Uninitialized :=
  fun _ _ => {| fresh_Vector2d := (0, 0); fresh_VectorXd := fun _ => 0 |}.

(** Every cell is a triangle with a geometry, and [x] is none of its mapped
    quadrature points with index below [P]. *)
Definition Jstar_defined (zeta_ref : list Vector2d) (P : nat)
    (cells : list Entity) (x : Vector2d) : Prop :=
  Forall
    (fun e =>
       RefEl e = kTria
       /\ exists geo,
            Geometry_ptr e = Some geo
            /\ Forall (fun l => x <> nth l (Global geo zeta_ref) (0, 0)) (seq 0 P))
    cells.

(** The uninitialized objects that [Jstar] reads all hold zeros. *)
Definition holds_zeros (st : nat -> nat -> Uninitialized) : Prop :=
  forall i l : nat,
    fresh_Vector2d (st i l) = (0, 0) /\ fresh_VectorXd (st i l) l = 0.

(** The unit square as a single quadrilateral cell. *)
Definition one_quad_mesh : Mesh :=
  {| Entities := fun codim =>
       match codim with
       | O => [ {| Index := 0; RefEl := kQuad; Geometry_ptr := Some Fixture.lower |} ]
       | _ => []
       end;
     flagEntitiesOnBoundary := fun _ _ => false |}.

(** A mesh whose only edge has no geometry. *)
Definition bare_edge_mesh : Mesh :=
  {| Entities := fun codim =>
       match codim with
       | S O => [ {| Index := 0; RefEl := kSegment; Geometry_ptr := None |} ]
       | _ => []
       end;
     flagEntitiesOnBoundary := fun _ _ => true |}.

(** * Properties *)

(** Decimal literals such as [0.5] are rationals injected into the reals;
    [ring] and [field] want them as quotients of integers. *)
Ltac decimals := cbv [Q2R QArith_base.Qnum QArith_base.Qden] in *.

(** ** Boolean tests and vectors *)

Lemma Rlt_b_true a b : Rlt_b a b = true <-> a < b.
Proof. unfold Rlt_b; destruct (Rlt_dec a b); split; intros; try easy. Qed.

Lemma Rgt_b_true a b : Rgt_b a b = true <-> a > b.
Proof. unfold Rgt_b; destruct (Rgt_dec a b); split; intros; try easy. Qed.

Lemma Rle_b_true a b : Rle_b a b = true <-> a <= b.
Proof. unfold Rle_b; destruct (Rle_dec a b); split; intros; try easy. Qed.

Lemma Rge_b_true a b : Rge_b a b = true <-> a >= b.
Proof. unfold Rge_b; destruct (Rge_dec a b); split; intros; try easy. Qed.

Lemma Rlt_b_false a b : Rlt_b a b = false <-> ~ a < b.
Proof. unfold Rlt_b; destruct (Rlt_dec a b); split; intros; try easy. Qed.

Lemma Rgt_b_false a b : Rgt_b a b = false <-> ~ a > b.
Proof. unfold Rgt_b; destruct (Rgt_dec a b); split; intros; try easy. Qed.

Lemma Rle_b_false a b : Rle_b a b = false <-> ~ a <= b.
Proof. unfold Rle_b; destruct (Rle_dec a b); split; intros; try easy. Qed.

Lemma Rge_b_false a b : Rge_b a b = false <-> ~ a >= b.
Proof. unfold Rge_b; destruct (Rge_dec a b); split; intros; try easy. Qed.

Lemma vneq_true (a b : Vector2d) : vneq a b = true <-> a <> b.
Proof.
  destruct a as [a0 a1], b as [b0 b1]; unfold vneq, Rneq_b; simpl.
  destruct (Req_dec_T a0 b0) as [E0 | N0], (Req_dec_T a1 b1) as [E1 | N1];
    simpl; split; intros H; try reflexivity; try discriminate.
  - subst; contradiction H; reflexivity.
  - intros E; inversion E; contradiction.
  - intros E; inversion E; contradiction.
  - intros E; inversion E; contradiction.
Qed.

Lemma vneq_refl (a : Vector2d) : vneq a a = false.
Proof.
  destruct (vneq a a) eqn:E; [|reflexivity].
  apply vneq_true in E; contradiction E; reflexivity.
Qed.

Lemma norm_sub_sym (x y : Vector2d) : norm (x -v y) = norm (y -v x).
Proof. unfold norm, vsub; simpl; f_equal; ring. Qed.

Lemma norm_nonneg (a : Vector2d) : 0 <= norm a.
Proof. apply sqrt_pos. Qed.

Lemma norm_sub_pos (x y : Vector2d) : x <> y -> 0 < norm (x -v y).
Proof.
  destruct x as [a0 a1], y as [b0 b1]; intros N.
  unfold norm, vsub; simpl. apply sqrt_lt_R0.
  destruct (Req_dec_T a0 b0) as [E0 | N0].
  - destruct (Req_dec_T a1 b1) as [E1 | N1]; [subst; contradiction N; reflexivity|].
    assert (0 < (a1 - b1) * (a1 - b1)) by (apply Rsqr_pos_lt; lra).
    assert (0 <= (a0 - b0) * (a0 - b0)) by apply Rle_0_sqr.
    lra.
  - assert (0 < (a0 - b0) * (a0 - b0)) by (apply Rsqr_pos_lt; lra).
    assert (0 <= (a1 - b1) * (a1 - b1)) by apply Rle_0_sqr.
    lra.
Qed.

(** [sqrt a] against a bound, through squares. *)
Lemma sqrt_le_of_sq (a b : R) : 0 <= b -> a <= b * b -> sqrt a <= b.
Proof.
  intros Hb Hab. destruct (Rle_dec 0 a) as [Ha | Ha].
  - rewrite <- (sqrt_square b Hb). apply sqrt_le_1_alt; exact Hab.
  - rewrite sqrt_neg_0 by lra. exact Hb.
Qed.

Lemma sqrt_ge_of_sq (a b : R) : 0 <= b -> b * b <= a -> b <= sqrt a.
Proof.
  intros Hb Hab. rewrite <- (sqrt_square b Hb) at 1. apply sqrt_le_1_alt; exact Hab.
Qed.

Lemma sqrt_eq_of_sq (a b : R) : 0 <= b -> a = b * b -> sqrt a = b.
Proof. intros Hb ->. apply sqrt_square; exact Hb. Qed.

Lemma sqrt2_sq : sqrt 2 * sqrt 2 = 2.
Proof. apply sqrt_sqrt; lra. Qed.

Lemma sqrt2_bounds : 1 < sqrt 2 < 2.
Proof.
  pose proof sqrt2_sq as H. pose proof (sqrt_pos 2) as P. split; nra.
Qed.

Lemma bind_Return {A : Type} (c : outcome A) : (x <- c ;; Return x) = c.
Proof. destruct c; reflexivity. Qed.

(** ** The kernel *)

Lemma G_distinct (x y : Vector2d) : x <> y -> G x y = Return (G_res x y).
Proof. intros N; unfold G. apply vneq_true in N; rewrite N; reflexivity. Qed.

Lemma gradG_distinct (x y : Vector2d) : x <> y -> gradG x y = Return (gradG_res x y).
Proof. intros N; unfold gradG. apply vneq_true in N; rewrite N; reflexivity. Qed.

Lemma G_coincident (x : Vector2d) :
  G x x = Abort "G not defined for these coordinates!".
Proof. unfold G; rewrite vneq_refl; reflexivity. Qed.

Lemma gradG_coincident (x : Vector2d) :
  gradG x x = Abort "G not defined for these coordinates!".
Proof. unfold gradG; rewrite vneq_refl; reflexivity. Qed.

(** C5: for distinct points [G] returns [-(1/2pi) ln |x-y|]; at coincident
    points the call is aborted by its assertion and returns nothing. *)
Theorem G_returns_kernel_or_aborts :
  (forall x y : Vector2d,
      x <> y -> G x y = Return (- (1 / (2 * PI)) * ln (norm (x -v y))))
  /\ (forall x : Vector2d, forall r : R, G x x <> Return r).
Proof.
  split.
  - intros x y N. rewrite (G_distinct x y N). f_equal.
    unfold G_res, M_PI. decimals. field. apply PI_neq0.
  - intros x r. rewrite G_coincident. discriminate.
Qed.

Lemma G_returns_kernel_or_aborts_witness :
  (1, 0) <> ((0, 0) : Vector2d)
  /\ G (1, 0) (0, 0) = Return (- (1 / (2 * PI)) * ln (norm ((1, 0) -v (0, 0)))).
Proof.
  assert (N : (1, 0) <> ((0, 0) : Vector2d)) by (intros E; inversion E; lra).
  split; [exact N | exact (proj1 G_returns_kernel_or_aborts (1, 0) (0, 0) N)].
Defined.

(** The gradient the code returns is the specification's gradient scaled by
    the distance of the two points. *)
Lemma gradG_res_scaled_spec (x y : Vector2d) :
  x <> y -> gradG_res x y = norm (x -v y) *v gradG_spec x y.
Proof.
  intros N. pose proof (norm_sub_pos x y N) as P.
  unfold gradG_res, gradG_spec, vscale, M_PI; simpl. decimals.
  apply pair_equal_spec. split; field; split; try apply PI_neq0; lra.
Qed.

(** C1: at [x = (2,0)], [y = (0,0)] the code returns [(-1/(2 pi), 0)], the
    vector [x-y] divided by [2 pi |x-y|]; the gradient of the specification,
    divided by [2 pi |x-y|^2], is [(-1/(4 pi), 0)]. *)
Theorem gradG_divides_by_norm_not_its_square :
  gradG (2, 0) (0, 0) = Return (- (1 / (2 * PI)), 0)
  /\ gradG_spec (2, 0) (0, 0) = (- (1 / (4 * PI)), 0)
  /\ gradG (2, 0) (0, 0) <> Return (gradG_spec (2, 0) (0, 0)).
Proof.
  assert (N : (2, 0) <> ((0, 0) : Vector2d)) by (intros E; inversion E; lra).
  assert (Hn : norm ((2, 0) -v (0, 0)) = 2).
  { unfold norm, vsub; simpl. apply sqrt_eq_of_sq; lra. }
  pose proof PI_RGT_0 as HP.
  assert (Hc : gradG (2, 0) (0, 0) = Return (- (1 / (2 * PI)), 0)).
  { rewrite (gradG_distinct _ _ N). unfold gradG_res. rewrite Hn.
    unfold vscale, vsub, M_PI; simpl. f_equal. decimals.
    apply pair_equal_spec. split; field; lra. }
  assert (Hs : gradG_spec (2, 0) (0, 0) = (- (1 / (4 * PI)), 0)).
  { unfold gradG_spec. rewrite Hn. unfold vscale, vsub; simpl.
    apply pair_equal_spec. split; field; lra. }
  split; [exact Hc | split; [exact Hs |]].
  rewrite Hc, Hs. intros E. inversion E as [H1].
  assert (0 < 1 / (4 * PI)) by (apply Rdiv_lt_0_compat; lra).
  assert (1 / (2 * PI) = 2 * (1 / (4 * PI))) by (field; lra).
  lra.
Qed.

(** C7: for distinct points [G] is symmetric and [gradG] changes sign when
    its arguments are exchanged. *)
Theorem G_symmetric_gradG_antisymmetric (x y : Vector2d) :
  x <> y ->
  G x y = G y x
  /\ exists g : Vector2d, gradG y x = Return g /\ gradG x y = Return (vopp g).
Proof.
  intros N. assert (N' : y <> x) by (intros E; apply N; symmetry; exact E).
  split.
  - rewrite (G_distinct x y N), (G_distinct y x N'). unfold G_res.
    rewrite (norm_sub_sym x y). reflexivity.
  - exists (gradG_res y x). split; [apply gradG_distinct; exact N'|].
    rewrite (gradG_distinct x y N). f_equal.
    unfold gradG_res. rewrite (norm_sub_sym x y).
    generalize (-1.0 / (2 * M_PI * norm (y -v x))); intros c.
    unfold vopp, vscale, vsub; simpl. apply pair_equal_spec. split; ring.
Qed.

Lemma G_symmetric_gradG_antisymmetric_witness :
  G (1, 0) (0, 0) = G (0, 0) (1, 0)
  /\ exists g : Vector2d,
       gradG (0, 0) (1, 0) = Return g /\ gradG (1, 0) (0, 0) = Return (vopp g).
Proof.
  apply (G_symmetric_gradG_antisymmetric (1, 0) (0, 0)).
  intros E; inversion E; lra.
Defined.

(** ** The normal of the unit square *)

Ltac decide_tests :=
  unfold Rgt_b, Rlt_b, Rle_b, Rge_b;
  repeat match goal with
         | |- context [Rgt_dec ?a ?b] => destruct (Rgt_dec a b)
         | |- context [Rlt_dec ?a ?b] => destruct (Rlt_dec a b)
         | |- context [Rle_dec ?a ?b] => destruct (Rle_dec a b)
         | |- context [Rge_dec ?a ?b] => destruct (Rge_dec a b)
         end;
  simpl; try reflexivity; try (exfalso; lra).

Lemma PDL_n_in_sector (m : Vector2d) (s : Sector) :
  in_sector m s -> PDL_n m = outward_normal s.
Proof.
  destruct m as [m0 m1]; destruct s; simpl; intros [H1 H2];
    unfold PDL_n; simpl; decide_tests; apply pair_equal_spec; split; lra.
Qed.

Lemma dotgradu_n_normal_eq (x : Vector2d) : dotgradu_n_normal x = PDL_n x.
Proof. reflexivity. Qed.

(** C10: on either diagonal of the unit square the three guarded branches
    are all refused, and both copies of the sector test, the one of [PDL]
    and the one of the functor of [pointEval], end in [(-1, 0)]. *)
Theorem diagonal_tie_selects_left_normal (p : Vector2d) :
  on_diagonal p ->
  Rgt_b (coeff p 0) (coeff p 1) && Rlt_b (coeff p 0) (1.0 - coeff p 1) = false
  /\ Rgt_b (coeff p 0) (coeff p 1) && Rgt_b (coeff p 0) (1.0 - coeff p 1) = false
  /\ Rlt_b (coeff p 0) (coeff p 1) && Rgt_b (coeff p 0) (1.0 - coeff p 1) = false
  /\ PDL_n p = (-1.0, 0.0)
  /\ dotgradu_n_normal p = (-1.0, 0.0).
Proof.
  destruct p as [p0 p1]; unfold on_diagonal; simpl; intros D.
  assert (T1 : Rgt_b p0 p1 && Rlt_b p0 (1.0 - p1) = false)
    by (destruct D; decide_tests).
  assert (T2 : Rgt_b p0 p1 && Rgt_b p0 (1.0 - p1) = false)
    by (destruct D; decide_tests).
  assert (T3 : Rlt_b p0 p1 && Rgt_b p0 (1.0 - p1) = false)
    by (destruct D; decide_tests).
  repeat split; try assumption.
  - unfold PDL_n; simpl. rewrite T1, T2, T3. reflexivity.
  - unfold dotgradu_n_normal; simpl. rewrite T1, T2, T3. reflexivity.
Qed.

Lemma diagonal_tie_selects_left_normal_witness :
  PDL_n (0.25, 0.75) = (-1.0, 0.0) /\ dotgradu_n_normal (0.25, 0.75) = (-1.0, 0.0).
Proof.
  assert (D : on_diagonal (0.25, 0.75)) by (right; simpl; lra).
  pose proof (diagonal_tie_selects_left_normal (0.25, 0.75) D) as H.
  split; [exact (proj1 (proj2 (proj2 (proj2 H))))
         | exact (proj2 (proj2 (proj2 (proj2 H))))].
Defined.

(** ** The boundary potentials as sums over the boundary edges *)

Lemma PSL_loop_sum (edge_pred : Entity -> bool) (v : Vector2d -> R) (x : Vector2d)
    (edges : list Entity) :
  off_midpoints edge_pred edges x ->
  forall PSLval : R,
    PSL_loop edge_pred v x edges PSLval
    = Return (PSLval + Rsum (map (PSL_integrand v x) (flagged_geometries edge_pred edges))).
Proof.
  unfold off_midpoints. induction 1 as [| e rest He _ IH]; intros acc; simpl.
  - f_equal; lra.
  - destruct (edge_pred e).
    + destruct (He eq_refl) as [geo [-> N]]. rewrite (G_distinct _ _ N). simpl.
      rewrite IH. unfold PSL_integrand at 2. f_equal; lra.
    + rewrite IH. reflexivity.
Qed.

Lemma PDL_loop_sum (edge_pred : Entity -> bool) (v : Vector2d -> R) (x : Vector2d)
    (edges : list Entity) :
  off_midpoints edge_pred edges x ->
  forall PDLval : R,
    PDL_loop edge_pred v x edges PDLval
    = Return (PDLval + Rsum (map (PDL_integrand v x) (flagged_geometries edge_pred edges))).
Proof.
  unfold off_midpoints. induction 1 as [| e rest He _ IH]; intros acc; simpl.
  - f_equal; lra.
  - destruct (edge_pred e).
    + destruct (He eq_refl) as [geo [-> N]]. rewrite (gradG_distinct _ _ N). simpl.
      rewrite IH. unfold PDL_integrand at 2. f_equal; lra.
    + rewrite IH. reflexivity.
Qed.

Lemma PSL_sum (mesh : Mesh) (v : Vector2d -> R) (x : Vector2d) :
  off_boundary_midpoints mesh x ->
  PSL mesh v x = Return (Rsum (map (PSL_integrand v x) (boundary_geometries mesh))).
Proof.
  intros H. unfold PSL. rewrite (PSL_loop_sum _ v x _ H). f_equal. unfold boundary_geometries. lra.
Qed.

Lemma PDL_sum (mesh : Mesh) (v : Vector2d -> R) (x : Vector2d) :
  off_boundary_midpoints mesh x ->
  PDL mesh v x = Return (Rsum (map (PDL_integrand v x) (boundary_geometries mesh))).
Proof.
  intros H. unfold PDL. rewrite (PDL_loop_sum _ v x _ H). f_equal.
  unfold boundary_geometries. lra.
Qed.

Lemma Rsum_linear {A : Type} (f g h : A -> R) (alpha beta : R) (l : list A) :
  (forall a, h a = alpha * f a + beta * g a) ->
  Rsum (map h l) = alpha * Rsum (map f l) + beta * Rsum (map g l).
Proof.
  intros E. induction l as [| a l IH]; simpl.
  - ring.
  - rewrite IH, E. ring.
Qed.

Lemma Fixture_square_off_midpoints :
  off_boundary_midpoints Fixture.square (0.3, 0.4).
Proof.
  unfold off_boundary_midpoints, off_midpoints; simpl.
  repeat constructor; simpl; intros _; eexists; (split; [reflexivity|]);
    unfold edge_midpoint; simpl; intros E; inversion E; lra.
Qed.

Lemma segment_midpoint_eq (geo : Geometry) :
  edge_midpoint (Corners geo) = segment_midpoint geo.
Proof.
  unfold edge_midpoint, segment_midpoint. apply pair_equal_spec; split; lra.
Qed.

Lemma off_segment_midpoints_code (mesh : Mesh) (x : Vector2d) :
  off_segment_midpoints mesh x -> off_boundary_midpoints mesh x.
Proof.
  unfold off_segment_midpoints, off_boundary_midpoints, off_midpoints.
  apply Forall_impl. intros e H Hf. destruct (H Hf) as [geo [Eg N]].
  exists geo. split; [exact Eg|]. rewrite segment_midpoint_eq. exact N.
Qed.

Lemma Rsum_by_sector (v : Vector2d -> R) (x : Vector2d) (geos : list Geometry) :
  forall sectors : list Sector,
    Forall2 (fun geo s => in_sector (segment_midpoint geo) s) geos sectors ->
    Rsum (map (PDL_integrand v x) geos)
    = Rsum (map (PDL_sector_integrand v x) (combine geos sectors)).
Proof.
  induction 1 as [| geo s geos sectors Hs _ IH]; simpl; [reflexivity|].
  rewrite IH. f_equal.
  unfold PDL_integrand, PDL_sector_integrand; simpl.
  rewrite segment_midpoint_eq, (PDL_n_in_sector _ _ Hs). reflexivity.
Qed.

Lemma Fixture_square_off_segment_midpoints :
  off_segment_midpoints Fixture.square (0.3, 0.4).
Proof.
  unfold off_segment_midpoints; simpl.
  repeat constructor; simpl; intros _; eexists; (split; [reflexivity|]);
    unfold segment_midpoint; simpl; intros E; inversion E; lra.
Qed.

Lemma Fixture_square_sectors :
  Forall2 (fun geo s => in_sector (segment_midpoint geo) s)
    (boundary_geometries Fixture.square) [Bottom; Right; Top; Left].
Proof.
  unfold boundary_geometries, flagged_geometries; simpl.
  repeat constructor; unfold segment_midpoint; simpl; lra.
Qed.

(** C8: the normal that [PDL] takes at a point is the outward normal of the
    open sector of the unit square that holds the point.  For every boundary
    edge the point is the midpoint of the two corners of the edge, and the
    potential is the sum over the boundary edges of
    [v(midpoint) * (gradG(x, midpoint) . n) * length]: with [n] the normal
    that the sector test gives at the midpoint, and hence, when the midpoints
    lie in the sectors [sectors], with [n] the outward normal of the sector
    of each edge. *)
Theorem PDL_normal_by_sector_and_integrand :
  (forall (m : Vector2d) (s : Sector), in_sector m s -> PDL_n m = outward_normal s)
  /\ (forall (mesh : Mesh) (v : Vector2d -> R) (x : Vector2d),
        off_segment_midpoints mesh x ->
        Forall (fun geo => gradG x (segment_midpoint geo)
                           = Return (gradG_res x (segment_midpoint geo)))
               (boundary_geometries mesh)
        /\ PDL mesh v x
           = Return (Rsum (map (fun geo =>
                                  let midpoint := segment_midpoint geo in
                                  let n := PDL_n midpoint in
                                  v midpoint * dot (gradG_res x midpoint) n * Volume geo)
                               (boundary_geometries mesh)))
        /\ (forall sectors : list Sector,
              Forall2 (fun geo s => in_sector (segment_midpoint geo) s)
                (boundary_geometries mesh) sectors ->
              PDL mesh v x
              = Return (Rsum (map (PDL_sector_integrand v x)
                                (combine (boundary_geometries mesh) sectors))))).
Proof.
  split; [exact PDL_n_in_sector|].
  intros mesh v x Hs. pose proof (off_segment_midpoints_code mesh x Hs) as H.
  split; [| split].
  - clear H. unfold off_segment_midpoints, boundary_geometries,
      flagged_geometries in *.
    induction Hs as [| e rest He _ IH]; simpl; [constructor|].
    destruct (flagEntitiesOnBoundary mesh 1 e); [| exact IH].
    destruct (He eq_refl) as [geo [-> N]]. simpl. constructor; [| exact IH].
    apply gradG_distinct; exact N.
  - rewrite (PDL_sum mesh v x H). do 2 f_equal. apply map_ext.
    intros geo. unfold PDL_integrand; simpl.
    rewrite segment_midpoint_eq. reflexivity.
  - intros sectors F. rewrite (PDL_sum mesh v x H). f_equal.
    apply Rsum_by_sector. exact F.
Qed.

Lemma PDL_normal_by_sector_and_integrand_witness :
  PDL_n (0.5, 0) = outward_normal Bottom
  /\ PDL Fixture.square (fun y => fst y + 2 * snd y) (0.3, 0.4)
     = Return (Rsum (map (PDL_sector_integrand (fun y => fst y + 2 * snd y)
                            (0.3, 0.4))
                       (combine (boundary_geometries Fixture.square)
                          [Bottom; Right; Top; Left]))).
Proof.
  split.
  - apply (proj1 PDL_normal_by_sector_and_integrand (0.5, 0) Bottom).
    simpl; lra.
  - apply (proj2 (proj2 (proj2 PDL_normal_by_sector_and_integrand Fixture.square
                           (fun y => fst y + 2 * snd y) (0.3, 0.4)
                           Fixture_square_off_segment_midpoints))).
    exact Fixture_square_sectors.
Defined.

Lemma PSL_loop_linear (edge_pred : Entity -> bool) (v1 v2 : Vector2d -> R)
    (alpha beta : R) (x : Vector2d) (edges : list Entity) :
  forall a1 a2 : R,
    PSL_loop edge_pred (fun y => alpha * v1 y + beta * v2 y) x edges
      (alpha * a1 + beta * a2)
    = (s1 <- PSL_loop edge_pred v1 x edges a1 ;;
       s2 <- PSL_loop edge_pred v2 x edges a2 ;;
       Return (alpha * s1 + beta * s2)).
Proof.
  induction edges as [| e rest IH]; intros a1 a2; simpl; [reflexivity|].
  destruct (edge_pred e); [| apply IH].
  destruct (Geometry_ptr e) as [geo |]; [| reflexivity].
  destruct (G x (edge_midpoint (Corners geo))) as [g | msg]; simpl; [| reflexivity].
  rewrite <- IH. f_equal. ring.
Qed.

Lemma PDL_loop_linear (edge_pred : Entity -> bool) (v1 v2 : Vector2d -> R)
    (alpha beta : R) (x : Vector2d) (edges : list Entity) :
  forall a1 a2 : R,
    PDL_loop edge_pred (fun y => alpha * v1 y + beta * v2 y) x edges
      (alpha * a1 + beta * a2)
    = (d1 <- PDL_loop edge_pred v1 x edges a1 ;;
       d2 <- PDL_loop edge_pred v2 x edges a2 ;;
       Return (alpha * d1 + beta * d2)).
Proof.
  induction edges as [| e rest IH]; intros a1 a2; simpl; [reflexivity|].
  destruct (edge_pred e); [| apply IH].
  destruct (Geometry_ptr e) as [geo |]; [| reflexivity].
  destruct (gradG x (edge_midpoint (Corners geo))) as [g | msg]; simpl; [| reflexivity].
  rewrite <- IH. f_equal. ring.
Qed.

(** C9: both potentials are linear in the boundary datum.  Whenever [x] is
    the midpoint of no boundary edge the three calls of each potential return
    numbers [s], [s1], [s2] with [s = alpha s1 + beta s2]; and on every mesh
    and at every [x] the call on the combined datum ends as the two separate
    calls do, aborted where they are. *)
Theorem PSL_PDL_linear (mesh : Mesh) (x : Vector2d) (alpha beta : R)
    (v1 v2 : Vector2d -> R) :
  (off_boundary_midpoints mesh x ->
   exists s1 s2 d1 d2 : R,
     PSL mesh v1 x = Return s1 /\ PSL mesh v2 x = Return s2
     /\ PSL mesh (fun y => alpha * v1 y + beta * v2 y) x
        = Return (alpha * s1 + beta * s2)
     /\ PDL mesh v1 x = Return d1 /\ PDL mesh v2 x = Return d2
     /\ PDL mesh (fun y => alpha * v1 y + beta * v2 y) x
        = Return (alpha * d1 + beta * d2))
  /\ PSL mesh (fun y => alpha * v1 y + beta * v2 y) x
     = (s1 <- PSL mesh v1 x ;; s2 <- PSL mesh v2 x ;; Return (alpha * s1 + beta * s2))
  /\ PDL mesh (fun y => alpha * v1 y + beta * v2 y) x
     = (d1 <- PDL mesh v1 x ;; d2 <- PDL mesh v2 x ;; Return (alpha * d1 + beta * d2)).
Proof.
  split; [intros H | split].
  - exists (Rsum (map (PSL_integrand v1 x) (boundary_geometries mesh))),
           (Rsum (map (PSL_integrand v2 x) (boundary_geometries mesh))),
           (Rsum (map (PDL_integrand v1 x) (boundary_geometries mesh))),
           (Rsum (map (PDL_integrand v2 x) (boundary_geometries mesh))).
    rewrite !(PSL_sum mesh _ x H), !(PDL_sum mesh _ x H).
    repeat split; f_equal.
    + apply Rsum_linear. intros geo. unfold PSL_integrand; simpl. ring.
    + apply Rsum_linear. intros geo. unfold PDL_integrand; simpl. ring.
  - unfold PSL. rewrite <- PSL_loop_linear. f_equal. lra.
  - unfold PDL. rewrite <- PDL_loop_linear. f_equal. lra.
Qed.

Lemma PSL_PDL_linear_witness :
  exists s1 s2 d1 d2 : R,
    PSL Fixture.square Fixture.unit_field (0.3, 0.4) = Return s1
    /\ PSL Fixture.square pointEval_u (0.3, 0.4) = Return s2
    /\ PSL Fixture.square (fun y => 2 * Fixture.unit_field y + 3 * pointEval_u y)
         (0.3, 0.4) = Return (2 * s1 + 3 * s2)
    /\ PDL Fixture.square Fixture.unit_field (0.3, 0.4) = Return d1
    /\ PDL Fixture.square pointEval_u (0.3, 0.4) = Return d2
    /\ PDL Fixture.square (fun y => 2 * Fixture.unit_field y + 3 * pointEval_u y)
         (0.3, 0.4) = Return (2 * d1 + 3 * d2).
Proof.
  exact (proj1 (PSL_PDL_linear Fixture.square (0.3, 0.4) 2 3 Fixture.unit_field
                  pointEval_u) Fixture_square_off_midpoints).
Defined.

(** ** The cutoff function *)

Lemma constant_inner : constant * (0.25 * sqrt 2 - 0.5) = PI / 2.
Proof.
  pose proof sqrt2_bounds as B. unfold constant, M_PI. decimals. field. lra.
Qed.

Lemma dot_0_r (a : Vector2d) : dot a (0, 0) = 0.
Proof. unfold dot; simpl; ring. Qed.




Lemma Psi_body_inner (y gradPsi : Vector2d) (laplPsi : R) :
  norm (y -v half) <= 0.25 * sqrt 2 ->
  Psi_body y gradPsi laplPsi = (0.0, (0.0, 0.0), 0.0).
Proof.
  intros H. unfold Psi_body. apply Rle_b_true in H. rewrite H. reflexivity.
Qed.

Lemma Psi_body_outer (y gradPsi : Vector2d) (laplPsi : R) :
  norm (y -v half) >= 0.5 ->
  Psi_body y gradPsi laplPsi = (1.0, (0.0, 0.0), 0.0).
Proof.
  intros H. unfold Psi_body. pose proof sqrt2_bounds as B.
  assert (N : ~ norm (y -v half) <= 0.25 * sqrt 2) by lra.
  apply Rle_b_false in N. apply Rge_b_true in H. rewrite N, H. reflexivity.
Qed.

Lemma Psi_body_annulus (y gradPsi : Vector2d) (laplPsi : R) :
  0.25 * sqrt 2 < norm (y -v half) < 0.5 ->
  Psi_body y gradPsi laplPsi = Psi_annulus y.
Proof.
  intros [H1 H2]. unfold Psi_body.
  assert (N1 : ~ norm (y -v half) <= 0.25 * sqrt 2) by lra.
  assert (N2 : ~ norm (y -v half) >= 0.5) by lra.
  apply Rle_b_false in N1. apply Rge_b_false in N2. rewrite N1, N2. reflexivity.
Qed.

Lemma norm_inner_radius : norm ((0.75, 0.75) -v half) = 0.25 * sqrt 2.
Proof.
  pose proof sqrt2_bounds as B. pose proof sqrt2_sq as S.
  unfold norm, vsub, half; simpl. apply sqrt_eq_of_sq; nra.
Qed.

Lemma norm_outer_radius : norm ((1, 0.5) -v half) = 0.5.
Proof. unfold norm, vsub, half; simpl. apply sqrt_eq_of_sq; lra. Qed.



(** A call of [Psi] leaves the caller's gradient and Laplacian untouched. *)
Lemma Psi_leaves_arguments (y gradPsi : Vector2d) (laplPsi : R) :
  snd (Psi y gradPsi laplPsi) = (gradPsi, laplPsi).
Proof.
  unfold Psi. destruct (Psi_body y gradPsi laplPsi) as [[v g] l]. reflexivity.
Qed.

Lemma norm_centre : norm (half -v half) = 0.
Proof. unfold norm, vsub, half; simpl. apply sqrt_eq_of_sq; lra. Qed.

(** C4: at the centre of the square the body of [Psi] sets its gradient to
    (0,0) and its Laplacian to 0, and the caller, who passed a gradient (1,1)
    and a Laplacian 1, still holds (1,1) and 1 after the call: the two
    parameters are passed by value. *)
Theorem Psi_outputs_do_not_reach_caller :
  Psi_body half (1, 1) 1 = (0.0, (0.0, 0.0), 0.0)
  /\ Psi half (1, 1) 1 = (0.0, ((1, 1), 1))
  /\ (1, 1) <> ((0.0, 0.0) : Vector2d)
  /\ 1 <> 0.0.
Proof.
  pose proof sqrt2_bounds as B.
  assert (Hb : Psi_body half (1, 1) 1 = (0.0, (0.0, 0.0), 0.0))
    by (apply Psi_body_inner; rewrite norm_centre; lra).
  split; [exact Hb|]. split.
  - unfold Psi. rewrite Hb. reflexivity.
  - split; [intros E; inversion E; lra | lra].
Qed.

(** ** The regularized functional *)

Lemma Fixture_lower_point : GlobalPoint Fixture.lower (1 / 3, 1 / 3) = (2 / 3, 1 / 3).
Proof.
  unfold Fixture.lower, Fixture.triangle, vadd, vscale, vsub; simpl.
  apply pair_equal_spec; split; field.
Qed.

Lemma Fixture_upper_point : GlobalPoint Fixture.upper (1 / 3, 1 / 3) = (1 / 3, 2 / 3).
Proof.
  unfold Fixture.upper, Fixture.triangle, vadd, vscale, vsub; simpl.
  apply pair_equal_spec; split; field.
Qed.

Lemma norm_half_lower : norm (half -v (2 / 3, 1 / 3)) = sqrt 2 / 6.
Proof.
  pose proof sqrt2_bounds as B. pose proof sqrt2_sq as S.
  unfold norm, vsub, half; simpl. apply sqrt_eq_of_sq; nra.
Qed.

Lemma norm_half_upper : norm (half -v (1 / 3, 2 / 3)) = sqrt 2 / 6.
Proof.
  pose proof sqrt2_bounds as B. pose proof sqrt2_sq as S.
  unfold norm, vsub, half; simpl. apply sqrt_eq_of_sq; nra.
Qed.

Lemma half_off_lower : half <> (2 / 3, 1 / 3).
Proof. unfold half; intros E; inversion E; lra. Qed.

Lemma half_off_upper : half <> (1 / 3, 2 / 3).
Proof. unfold half; intros E; inversion E; lra. Qed.

Lemma ln_sqrt2_6_neg : ln (sqrt 2 / 6) < 0.
Proof.
  pose proof sqrt2_bounds as B. rewrite <- ln_1. apply ln_increasing; lra.
Qed.

(** What the code computes on the two triangles, for any field [u] and any
    content of the uninitialized storage: the result is a function of that
    content, and the cutoff does not enter it. *)
Lemma Jstar_on_Fixture (st : nat -> nat -> Uninitialized) (u : Vector2d -> R) :
  Jstar Fixture.midpoint_rule st Fixture.fe_space u half
  = Return (0.0
            - 1 / 2 * u (2 / 3, 1 / 3)
              * (2 * dot (gradG_res half (2 / 3, 1 / 3)) (fresh_Vector2d (st 0 0)%nat)
                 + G_res half (2 / 3, 1 / 3) * fresh_VectorXd (st 0 0)%nat 0%nat) * 1
            - 1 / 2 * u (1 / 3, 2 / 3)
              * (2 * dot (gradG_res half (1 / 3, 2 / 3)) (fresh_Vector2d (st 1 0)%nat)
                 + G_res half (1 / 3, 2 / 3) * fresh_VectorXd (st 1 0)%nat 0%nat) * 1).
Proof.
  unfold Jstar; simpl.
  change ((0, 0) +v 1 / 3 *v ((1, 0) -v (0, 0)) +v 1 / 3 *v ((1, 1) -v (0, 0)))
    with (GlobalPoint Fixture.lower (1 / 3, 1 / 3)).
  change ((0, 0) +v 1 / 3 *v ((1, 1) -v (0, 0)) +v 1 / 3 *v ((0, 1) -v (0, 0)))
    with (GlobalPoint Fixture.upper (1 / 3, 1 / 3)).
  rewrite Fixture_lower_point, Fixture_upper_point.
  unfold Psi at 1.
  destruct (Psi_body (2 / 3, 1 / 3) (fresh_Vector2d (st 0 0)%nat)
              (fresh_VectorXd (st 0 0)%nat 0%nat)) as [[v1 g1] l1].
  rewrite (gradG_distinct _ _ half_off_lower), (G_distinct _ _ half_off_lower).
  simpl.
  unfold Psi at 1.
  destruct (Psi_body (1 / 3, 2 / 3) (fresh_Vector2d (st 1 0)%nat)
              (fresh_VectorXd (st 1 0)%nat 0%nat)) as [[v2 g2] l2].
  rewrite (gradG_distinct _ _ half_off_upper), (G_distinct _ _ half_off_upper).
  reflexivity.
Qed.

Lemma G_res_half_lower : G_res half (2 / 3, 1 / 3) = - (ln (sqrt 2 / 6) / (2 * PI)).
Proof.
  unfold G_res, M_PI. rewrite norm_half_lower. decimals. field. apply PI_neq0.
Qed.

Lemma G_res_half_upper : G_res half (1 / 3, 2 / 3) = - (ln (sqrt 2 / 6) / (2 * PI)).
Proof.
  unfold G_res, M_PI. rewrite norm_half_upper. decimals. field. apply PI_neq0.
Qed.

Lemma Jstar_spec_term_lower (u : Vector2d -> R) (x : Vector2d) :
  Jstar_spec_term (1 / 2) (1 / 3, 1 / 3) u x Fixture.lower = 0.
Proof.
  pose proof sqrt2_bounds as B.
  unfold Jstar_spec_term. rewrite Fixture_lower_point.
  rewrite Psi_body_inner.
  - unfold dot; simpl. lra.
  - rewrite norm_sub_sym, norm_half_lower. lra.
Qed.

Lemma Jstar_spec_term_upper (u : Vector2d -> R) (x : Vector2d) :
  Jstar_spec_term (1 / 2) (1 / 3, 1 / 3) u x Fixture.upper = 0.
Proof.
  pose proof sqrt2_bounds as B.
  unfold Jstar_spec_term. rewrite Fixture_upper_point.
  rewrite Psi_body_inner.
  - unfold dot; simpl. lra.
  - rewrite norm_sub_sym, norm_half_upper. lra.
Qed.

(** A cell that is not a triangle aborts the evaluation. *)
Lemma Jstar_cell_loop_not_tria qr_points qr_weights P st (u : Vector2d -> R)
    (x : Vector2d) (cells : list Entity) :
  Exists (fun e => RefEl e <> kTria) cells ->
  forall (i : nat) (val r : R),
    Jstar_cell_loop st qr_points qr_weights P u x i cells val <> Return r.
Proof.
  induction 1 as [e rest He | e rest _ IH]; intros i val r; simpl.
  - destruct (RefEl e); simpl; try discriminate. contradiction He; reflexivity.
  - destruct (RefElType_eqb (RefEl e) kTria); simpl; [| discriminate].
    destruct (Geometry_ptr e) as [geo |]; [| discriminate].
    destruct (Jstar_quad_loop st u x (Global geo qr_points) qr_weights
                (IntegrationElement geo qr_points) i (seq 0 P) val);
      simpl; [apply IH | discriminate].
Qed.

(** C3: on the two triangles of the unit square, with [u = 1] and [x] the
    centre, both quadrature points lie in the inner disk of the cutoff, so
    the sum of the specification is 0; the code, whose [gradPsi] and
    [laplPsi] are never written by [Psi], returns [ln (sqrt 2 / 6) / (2 pi)]
    when the storage holds a zero vector and ones, and that is not 0. *)
Theorem Jstar_reads_uninitialized_storage :
  Jstar Fixture.midpoint_rule Fixture.stale Fixture.fe_space Fixture.unit_field half
  = Return (ln (sqrt 2 / 6) / (2 * PI))
  /\ Jstar_spec (1 / 2) (1 / 3, 1 / 3) [Fixture.lower; Fixture.upper]
       Fixture.unit_field half = 0
  /\ ln (sqrt 2 / 6) / (2 * PI) <> 0.
Proof.
  pose proof PI_RGT_0 as HP. pose proof ln_sqrt2_6_neg as HL.
  split; [| split].
  - rewrite Jstar_on_Fixture, G_res_half_lower, G_res_half_upper. simpl.
    rewrite !dot_0_r.
    f_equal. unfold Fixture.unit_field. decimals. field. lra.
  - unfold Jstar_spec; simpl.
    rewrite Jstar_spec_term_lower, Jstar_spec_term_upper. lra.
  - intros E. apply Rmult_eq_compat_r with (r := 2 * PI) in E.
    unfold Rdiv in E. rewrite Rmult_assoc, Rinv_l in E by lra. lra.
Qed.

(** ** The driver *)

Lemma stab_pointEval_inside qr st fe_space (u : Vector2d -> R) (x : Vector2d) :
  norm (x -v half) <= 0.25 ->
  stab_pointEval qr st fe_space u x = ([], Jstar qr st fe_space u x).
Proof.
  intros H. unfold stab_pointEval. apply Rle_b_true in H. rewrite H.
  rewrite bind_Return. reflexivity.
Qed.

Lemma stab_pointEval_outside qr st fe_space (u : Vector2d -> R) (x : Vector2d) :
  norm (x -v half) > 0.25 ->
  stab_pointEval qr st fe_space u x
  = (["The point does not fulfill the assumptions"%string], Return 0.0).
Proof.
  intros H. unfold stab_pointEval.
  assert (N : ~ norm (x -v half) <= 0.25) by lra.
  apply Rle_b_false in N. rewrite N. reflexivity.
Qed.

Lemma norm_corner : norm ((1, 1) -v half) > 0.25.
Proof.
  assert (0.5 <= norm ((1, 1) -v half)).
  { unfold norm, vsub, half; simpl. apply sqrt_ge_of_sq; lra. }
  lra.
Qed.

(** C2, as the code has it: inside the disk of radius 0.25 the driver
    returns what [Jstar] returns and writes nothing; outside it writes one
    line to the error stream and returns the number 0. *)
Theorem stab_pointEval_dispatch qr st fe_space (u : Vector2d -> R) (x : Vector2d) :
  (norm (x -v half) <= 0.25 ->
     stab_pointEval qr st fe_space u x = ([], Jstar qr st fe_space u x))
  /\ (norm (x -v half) > 0.25 ->
        stab_pointEval qr st fe_space u x
        = (["The point does not fulfill the assumptions"%string], Return 0)).
Proof.
  split; intros H.
  - apply stab_pointEval_inside; exact H.
  - rewrite (stab_pointEval_outside _ _ _ _ _ H). do 2 f_equal. lra.
Qed.

Lemma stab_pointEval_dispatch_witness :
  stab_pointEval Fixture.midpoint_rule Fixture.stale Fixture.fe_space
    Fixture.unit_field half
  = ([], Jstar Fixture.midpoint_rule Fixture.stale Fixture.fe_space
           Fixture.unit_field half)
  /\ stab_pointEval Fixture.midpoint_rule Fixture.stale Fixture.fe_space
       Fixture.unit_field (1, 1)
     = (["The point does not fulfill the assumptions"%string], Return 0).
Proof.
  split.
  - apply (proj1 (stab_pointEval_dispatch Fixture.midpoint_rule Fixture.stale
                    Fixture.fe_space Fixture.unit_field half)).
    rewrite norm_centre. lra.
  - apply (proj2 (stab_pointEval_dispatch Fixture.midpoint_rule Fixture.stale
                    Fixture.fe_space Fixture.unit_field (1, 1))).
    exact norm_corner.
Defined.

(** C2, as the specification has it, fails at [x = (1,1)], outside the disk:
    the driver returns the plain number 0, the very value it returns for the
    zero field at the centre, inside the disk. *)
Lemma driver_returns_plain_zero_off_region :
  norm ((1, 1) -v half) > 0.25
  /\ stab_pointEval Fixture.midpoint_rule Fixture.stale Fixture.fe_space
       Fixture.zero_field (1, 1)
     = (["The point does not fulfill the assumptions"%string], Return 0)
  /\ norm (half -v half) <= 0.25
  /\ snd (stab_pointEval Fixture.midpoint_rule Fixture.stale Fixture.fe_space
            Fixture.zero_field half) = Return 0.
Proof.
  split; [exact norm_corner|]. split; [| split].
  - rewrite (stab_pointEval_outside _ _ _ _ _ norm_corner). do 2 f_equal. lra.
  - rewrite norm_centre. lra.
  - rewrite stab_pointEval_inside by (rewrite norm_centre; lra). simpl snd.
    rewrite Jstar_on_Fixture. f_equal. unfold Fixture.zero_field. lra.
Qed.

(** * Further properties of the code *)

(** ** The kernel *)

Lemma vneq_translate (x y t : Vector2d) : vneq (x +v t) (y +v t) = vneq x y.
Proof.
  destruct (vneq x y) eqn:E.
  - apply vneq_true. apply vneq_true in E. intros H. apply E.
    destruct x as [a0 a1], y as [b0 b1], t as [t0 t1].
    unfold vadd in H; simpl in H. inversion H.
    apply pair_equal_spec; split; lra.
  - destruct (vneq (x +v t) (y +v t)) eqn:E'; [| reflexivity].
    apply vneq_true in E'. exfalso. apply E'.
    destruct (Req_dec_T (fst x) (fst y)) as [E0 | N0];
      destruct (Req_dec_T (snd x) (snd y)) as [E1 | N1];
      unfold vneq, Rneq_b in E;
      destruct (Req_dec_T (fst x) (fst y)); destruct (Req_dec_T (snd x) (snd y));
      simpl in E; try discriminate; try contradiction.
    destruct x as [a0 a1], y as [b0 b1]; simpl in *; subst. reflexivity.
Qed.

Lemma vsub_translate (x y t : Vector2d) : (x +v t) -v (y +v t) = x -v y.
Proof. unfold vsub, vadd; simpl. apply pair_equal_spec; split; ring. Qed.

(** The kernel and its gradient depend on the difference of the two points
    only: moving both points by the same vector changes neither the result
    nor whether the call is aborted. *)
Theorem kernel_translation_invariant (x y t : Vector2d) :
  G (x +v t) (y +v t) = G x y /\ gradG (x +v t) (y +v t) = gradG x y.
Proof.
  unfold G, gradG, G_res, gradG_res.
  rewrite vneq_translate, vsub_translate. split; reflexivity.
Qed.

Lemma norm_vscale (s : R) (a : Vector2d) : norm (s *v a) = Rabs s * norm a.
Proof.
  unfold norm, vscale; simpl.
  replace (s * fst a * (s * fst a) + s * snd a * (s * snd a))
    with (Rsqr s * (fst a * fst a + snd a * snd a)) by (unfold Rsqr; ring).
  rewrite sqrt_mult.
  - rewrite sqrt_Rsqr_abs. reflexivity.
  - apply Rle_0_sqr.
  - assert (0 <= fst a * fst a) by apply Rle_0_sqr.
    assert (0 <= snd a * snd a) by apply Rle_0_sqr. lra.
Qed.

(** The vector returned by [gradG] has the same length [1/(2 pi)] for every
    pair of distinct points, however near or far they are. *)
Theorem gradG_has_constant_length (x y : Vector2d) :
  x <> y ->
  exists g : Vector2d, gradG x y = Return g /\ norm g = 1 / (2 * PI).
Proof.
  intros N. exists (gradG_res x y). split; [apply gradG_distinct; exact N|].
  pose proof (norm_sub_pos x y N) as P. pose proof PI_RGT_0 as HP.
  unfold gradG_res. rewrite norm_vscale.
  assert (E : -1.0 / (2 * M_PI * norm (x -v y)) = - (1 / (2 * PI * norm (x -v y)))).
  { unfold M_PI. decimals. field. split; lra. }
  rewrite E, Rabs_Ropp, Rabs_pos_eq.
  - field. split; lra.
  - apply Rlt_le, Rdiv_lt_0_compat; [lra|].
    apply Rmult_lt_0_compat; lra.
Qed.

Lemma gradG_has_constant_length_witness :
  exists g : Vector2d, gradG (3, 4) (0, 0) = Return g /\ norm g = 1 / (2 * PI).
Proof.
  apply (gradG_has_constant_length (3, 4) (0, 0)).
  intros E; inversion E; lra.
Defined.

(** [G] returns a value that is positive below the distance 1 of the two
    points, zero at the distance 1 and negative beyond. *)
Theorem G_sign_by_distance (x y : Vector2d) :
  x <> y ->
  exists g : R,
    G x y = Return g
    /\ (norm (x -v y) < 1 -> 0 < g)
    /\ (norm (x -v y) = 1 -> g = 0)
    /\ (1 < norm (x -v y) -> g < 0).
Proof.
  intros N. exists (G_res x y). split; [apply G_distinct; exact N|].
  pose proof (norm_sub_pos x y N) as P. pose proof PI_RGT_0 as HP.
  assert (E : G_res x y = - (ln (norm (x -v y)) / (2 * PI))).
  { unfold G_res, M_PI. decimals. field. lra. }
  assert (HI : 0 < / (2 * PI)) by (apply Rinv_0_lt_compat; lra).
  rewrite E. unfold Rdiv. repeat split; intros H.
  - assert (ln (norm (x -v y)) < 0)
      by (rewrite <- ln_1; apply ln_increasing; lra).
    nra.
  - rewrite H, ln_1. lra.
  - assert (0 < ln (norm (x -v y)))
      by (rewrite <- ln_1; apply ln_increasing; lra).
    nra.
Qed.

Lemma G_sign_by_distance_witness :
  exists g : R,
    G (3, 4) (0, 0) = Return g
    /\ (norm ((3, 4) -v (0, 0)) < 1 -> 0 < g)
    /\ (norm ((3, 4) -v (0, 0)) = 1 -> g = 0)
    /\ (1 < norm ((3, 4) -v (0, 0)) -> g < 0).
Proof.
  apply (G_sign_by_distance (3, 4) (0, 0)).
  intros E; inversion E; lra.
Defined.

(** ** The verification helper *)

(** The functor [gradu] of [pointEval] returns a vector of length 1 at every
    point other than (-1,0). *)
Theorem pointEval_gradu_is_a_unit_vector (x : Vector2d) :
  x <> (-1, 0) -> norm (pointEval_gradu x) = 1.
Proof.
  intros N. unfold pointEval_gradu. cbv zeta.
  assert (P : 0 < norm (x +v (1.0, 0.0))).
  { replace (x +v (1.0, 0.0)) with (x -v (-1, 0)).
    - apply norm_sub_pos; exact N.
    - unfold vsub, vadd; simpl. apply pair_equal_spec; split; lra. }
  rewrite norm_vscale, Rabs_pos_eq.
  - decimals. field. lra.
  - apply Rlt_le, Rdiv_lt_0_compat; lra.
Qed.

Lemma pointEval_gradu_is_a_unit_vector_witness :
  norm (pointEval_gradu (0.3, 0.4)) = 1.
Proof.
  apply (pointEval_gradu_is_a_unit_vector (0.3, 0.4)).
  intros E; inversion E; lra.
Defined.

(** ** The normal on the sides of the unit square *)

(** On each side of the unit square, corners apart, both copies of the
    sector test give the outward normal of that side. *)
Theorem normal_on_the_sides (t : R) :
  0 < t < 1 ->
  (PDL_n (t, 0) = (0, -1) /\ dotgradu_n_normal (t, 0) = (0, -1))
  /\ (PDL_n (1, t) = (1, 0) /\ dotgradu_n_normal (1, t) = (1, 0))
  /\ (PDL_n (t, 1) = (0, 1) /\ dotgradu_n_normal (t, 1) = (0, 1))
  /\ (PDL_n (0, t) = (-1, 0) /\ dotgradu_n_normal (0, t) = (-1, 0)).
Proof.
  intros [H0 H1].
  repeat split.
  - apply (PDL_n_in_sector (t, 0) Bottom); simpl; lra.
  - apply (PDL_n_in_sector (t, 0) Bottom); simpl; lra.
  - apply (PDL_n_in_sector (1, t) Right); simpl; lra.
  - apply (PDL_n_in_sector (1, t) Right); simpl; lra.
  - apply (PDL_n_in_sector (t, 1) Top); simpl; lra.
  - apply (PDL_n_in_sector (t, 1) Top); simpl; lra.
  - apply (PDL_n_in_sector (0, t) Left); simpl; lra.
  - apply (PDL_n_in_sector (0, t) Left); simpl; lra.
Qed.

Lemma normal_on_the_sides_witness :
  (PDL_n (0.5, 0) = (0, -1) /\ dotgradu_n_normal (0.5, 0) = (0, -1))
  /\ (PDL_n (1, 0.5) = (1, 0) /\ dotgradu_n_normal (1, 0.5) = (1, 0))
  /\ (PDL_n (0.5, 1) = (0, 1) /\ dotgradu_n_normal (0.5, 1) = (0, 1))
  /\ (PDL_n (0, 0.5) = (-1, 0) /\ dotgradu_n_normal (0, 0.5) = (-1, 0)).
Proof.
  apply (normal_on_the_sides 0.5). lra.
Defined.

(** ** The mesh size *)

Lemma getMeshSize_loop_spec (edges : list Entity) :
  forall geos : list Geometry,
    all_geometries edges geos ->
    forall mesh_size : R,
    exists m : R,
      getMeshSize_loop edges mesh_size = Return m
      /\ mesh_size <= m
      /\ Forall (fun geo => corner_distance geo <= m) geos
      /\ (m = mesh_size \/ In m (map corner_distance geos)).
Proof.
  unfold all_geometries.
  induction edges as [| e rest IH]; intros [| geo geos] H m0; simpl in H;
    try discriminate.
  - exists m0. simpl. repeat split; [lra | constructor | left; reflexivity].
  - injection H as He Hrest. simpl. rewrite He.
    fold (corner_distance geo).
    destruct (Rlt_b m0 (corner_distance geo)) eqn:T.
    + apply Rlt_b_true in T.
      destruct (IH geos Hrest (corner_distance geo)) as [m [E [L [F D]]]].
      exists m. repeat split; [exact E | lra | constructor; [exact L | exact F] |].
      right. simpl. destruct D as [D | D]; [left; symmetry; exact D | right; exact D].
    + apply Rlt_b_false in T.
      destruct (IH geos Hrest m0) as [m [E [L [F D]]]].
      exists m. repeat split; [exact E | exact L | constructor; [lra | exact F] |].
      destruct D as [D | D]; [left; exact D | right; simpl; right; exact D].
Qed.

(** When every edge has a geometry, [getMeshSize] returns a number that no
    edge length exceeds; it is 0 for a mesh without edges and the length of
    one of the edges otherwise. *)
Theorem getMeshSize_is_the_longest_edge (mesh_p : Mesh) (geos : list Geometry) :
  all_geometries (Entities mesh_p 1) geos ->
  exists m : R,
    getMeshSize mesh_p = Return m
    /\ Forall (fun geo => corner_distance geo <= m) geos
    /\ (geos = [] -> m = 0)
    /\ (geos <> [] -> exists geo, In geo geos /\ corner_distance geo = m).
Proof.
  intros H. unfold getMeshSize.
  destruct (getMeshSize_loop_spec _ geos H 0.0) as [m [E [L [F D]]]].
  exists m. repeat split; [exact E | exact F | |].
  - intros ->. simpl in D. destruct D as [D | []]. lra.
  - intros NE. destruct D as [D | D].
    + destruct geos as [| geo geos]; [contradiction NE; reflexivity|].
      exists geo. split; [left; reflexivity|].
      inversion F as [| ? ? Hg _]; subst.
      pose proof (norm_nonneg (col (Corners geo) 0 -v col (Corners geo) 1)) as P.
      fold (corner_distance geo) in P. lra.
    + apply in_map_iff in D. destruct D as [geo [Eg Ig]].
      exists geo. split; assumption.
Qed.

Lemma Fixture_edges_geometries :
  all_geometries (Entities Fixture.square 1)
    [ Fixture.segment (0, 0) (1, 0) 1; Fixture.segment (1, 0) (1, 1) 1;
      Fixture.segment (1, 1) (0, 1) 1; Fixture.segment (0, 1) (0, 0) 1;
      Fixture.segment (0, 0) (1, 1) (sqrt 2) ].
Proof. reflexivity. Qed.

Lemma getMeshSize_is_the_longest_edge_witness :
  exists m : R,
    getMeshSize Fixture.square = Return m
    /\ Forall (fun geo => corner_distance geo <= m)
         [ Fixture.segment (0, 0) (1, 0) 1; Fixture.segment (1, 0) (1, 1) 1;
           Fixture.segment (1, 1) (0, 1) 1; Fixture.segment (0, 1) (0, 0) 1;
           Fixture.segment (0, 0) (1, 1) (sqrt 2) ].
Proof.
  destruct (getMeshSize_is_the_longest_edge Fixture.square _
              Fixture_edges_geometries) as [m [E [F _]]].
  exists m. split; [exact E | exact F].
Defined.

(** An edge without geometry ends [getMeshSize] without a result. *)
Theorem getMeshSize_needs_every_geometry (mesh_p : Mesh) :
  Exists (fun e => Geometry_ptr e = None) (Entities mesh_p 1) ->
  forall r : R, getMeshSize mesh_p <> Return r.
Proof.
  intros H. unfold getMeshSize. generalize 0.0.
  induction H as [e rest He | e rest _ IH]; intros m0 r; simpl.
  - rewrite He. discriminate.
  - destruct (Geometry_ptr e) as [geo |]; [| discriminate].
    destruct (Rlt_b m0 (norm (col (Corners geo) 0 -v col (Corners geo) 1)));
      apply IH.
Qed.

Lemma getMeshSize_needs_every_geometry_witness :
  exists msg : string, getMeshSize bare_edge_mesh = Abort msg.
Proof.
  assert (H : Exists (fun e => Geometry_ptr e = None) (Entities bare_edge_mesh 1))
    by (simpl; left; reflexivity).
  pose proof (getMeshSize_needs_every_geometry bare_edge_mesh H) as N.
  destruct (getMeshSize bare_edge_mesh) as [r | msg].
  - contradiction (N r). reflexivity.
  - exists msg. reflexivity.
Defined.

(** ** When the boundary potentials return *)

Lemma PSL_loop_returns (edge_pred : Entity -> bool) (v : Vector2d -> R)
    (x : Vector2d) (edges : list Entity) :
  forall PSLval r : R,
    PSL_loop edge_pred v x edges PSLval = Return r ->
    off_midpoints edge_pred edges x.
Proof.
  unfold off_midpoints.
  induction edges as [| e rest IH]; intros acc r H; [constructor|].
  simpl in H. destruct (edge_pred e) eqn:Ep.
  - destruct (Geometry_ptr e) as [geo |] eqn:Eg; [| discriminate].
    unfold G in H. destruct (vneq x (edge_midpoint (Corners geo))) eqn:Ev;
      simpl in H; [| discriminate].
    constructor; [| exact (IH _ _ H)].
    intros _. exists geo. split; [exact Eg | apply vneq_true; exact Ev].
  - constructor; [intros Hc; congruence | exact (IH _ _ H)].
Qed.

Lemma PDL_loop_returns (edge_pred : Entity -> bool) (v : Vector2d -> R)
    (x : Vector2d) (edges : list Entity) :
  forall PDLval r : R,
    PDL_loop edge_pred v x edges PDLval = Return r ->
    off_midpoints edge_pred edges x.
Proof.
  unfold off_midpoints.
  induction edges as [| e rest IH]; intros acc r H; [constructor|].
  simpl in H. destruct (edge_pred e) eqn:Ep.
  - destruct (Geometry_ptr e) as [geo |] eqn:Eg; [| discriminate].
    unfold gradG in H. destruct (vneq x (edge_midpoint (Corners geo))) eqn:Ev;
      simpl in H; [| discriminate].
    constructor; [| exact (IH _ _ H)].
    intros _. exists geo. split; [exact Eg | apply vneq_true; exact Ev].
  - constructor; [intros Hc; congruence | exact (IH _ _ H)].
Qed.

(** [PSL] and [PDL] return a number exactly when every flagged edge has a
    geometry and [x] is the midpoint of none of them, whatever the boundary
    datum; in every other case the call is aborted. *)
Theorem potentials_return_iff_off_midpoints (mesh : Mesh) (v : Vector2d -> R)
    (x : Vector2d) :
  ((exists r : R, PSL mesh v x = Return r) <-> off_boundary_midpoints mesh x)
  /\ ((exists r : R, PDL mesh v x = Return r) <-> off_boundary_midpoints mesh x).
Proof.
  split; split.
  - intros [r H]. exact (PSL_loop_returns _ v x _ _ r H).
  - intros H. eexists. exact (PSL_sum mesh v x H).
  - intros [r H]. exact (PDL_loop_returns _ v x _ _ r H).
  - intros H. eexists. exact (PDL_sum mesh v x H).
Qed.

Lemma potentials_return_iff_off_midpoints_witness :
  (exists r : R, PSL Fixture.square Fixture.unit_field (0.3, 0.4) = Return r)
  /\ (exists r : R, PDL Fixture.square Fixture.unit_field (0.3, 0.4) = Return r).
Proof.
  pose proof (potentials_return_iff_off_midpoints Fixture.square
                Fixture.unit_field (0.3, 0.4)) as [H1 H2].
  split.
  - exact (proj2 H1 Fixture_square_off_midpoints).
  - exact (proj2 H2 Fixture_square_off_midpoints).
Defined.

(** ** The order of the edges *)

Lemma Rsum_Permutation (l l' : list R) : Permutation l l' -> Rsum l = Rsum l'.
Proof.
  induction 1 as [| a l l' _ IH | a b l | l l' l'' _ IH1 _ IH2]; simpl.
  - reflexivity.
  - rewrite IH. reflexivity.
  - ring.
  - rewrite IH1. exact IH2.
Qed.

Lemma flagged_geometries_ext (p q : Entity -> bool) (edges : list Entity) :
  (forall e, p e = q e) -> flagged_geometries p edges = flagged_geometries q edges.
Proof.
  intros E. unfold flagged_geometries.
  induction edges as [| e rest IH]; simpl; [reflexivity|].
  rewrite E, IH. reflexivity.
Qed.

Lemma off_midpoints_ext (p q : Entity -> bool) (edges : list Entity) (x : Vector2d) :
  (forall e, p e = q e) -> off_midpoints p edges x -> off_midpoints q edges x.
Proof.
  intros E. unfold off_midpoints. apply Forall_impl.
  intros e H Hq. apply H. rewrite E. exact Hq.
Qed.

(** The two potentials do not depend on the order in which the mesh
    enumerates its edges: on two meshes with the same edges and the same
    flags, in any order, the calls that return on one return the same number
    on the other. *)
Theorem potentials_independent_of_edge_order (mesh mesh' : Mesh)
    (v : Vector2d -> R) (x : Vector2d) :
  (forall e, flagEntitiesOnBoundary mesh 1 e = flagEntitiesOnBoundary mesh' 1 e) ->
  Permutation (Entities mesh 1) (Entities mesh' 1) ->
  off_boundary_midpoints mesh x ->
  PSL mesh' v x = PSL mesh v x /\ PDL mesh' v x = PDL mesh v x.
Proof.
  intros Ef Pe H.
  assert (H' : off_boundary_midpoints mesh' x).
  { unfold off_boundary_midpoints in *.
    apply (off_midpoints_ext _ _ _ _ Ef).
    unfold off_midpoints in *. exact (Permutation_Forall Pe H). }
  assert (Pg : Permutation (boundary_geometries mesh) (boundary_geometries mesh')).
  { unfold boundary_geometries.
    rewrite <- (flagged_geometries_ext _ _ (Entities mesh' 1) Ef).
    unfold flagged_geometries. apply Permutation_flat_map. exact Pe. }
  rewrite (PSL_sum mesh v x H), (PSL_sum mesh' v x H'),
    (PDL_sum mesh v x H), (PDL_sum mesh' v x H').
  split; f_equal; symmetry; apply Rsum_Permutation, Permutation_map; exact Pg.
Qed.

Lemma potentials_independent_of_edge_order_witness :
  PSL (reversed Fixture.square) Fixture.unit_field (0.3, 0.4)
  = PSL Fixture.square Fixture.unit_field (0.3, 0.4)
  /\ PDL (reversed Fixture.square) Fixture.unit_field (0.3, 0.4)
     = PDL Fixture.square Fixture.unit_field (0.3, 0.4).
Proof.
  apply (potentials_independent_of_edge_order Fixture.square
           (reversed Fixture.square) Fixture.unit_field (0.3, 0.4)).
  - intros e. reflexivity.
  - apply Permutation_rev.
  - exact Fixture_square_off_midpoints.
Defined.

(** ** The verification helper on a mesh *)

(** [pointEval] returns exactly when (0.3, 0.4) is the midpoint of no
    boundary edge and every boundary edge has a geometry, and what it
    returns is never negative. *)
Theorem pointEval_returns_a_nonnegative_error (mesh : Mesh) :
  ((exists e : R, pointEval mesh = Return e)
   <-> off_boundary_midpoints mesh (0.3, 0.4))
  /\ (forall e : R, pointEval mesh = Return e -> 0 <= e).
Proof.
  split; [split|].
  - intros [e H]. unfold pointEval in H. cbv zeta in H.
    destruct (PSL mesh dotgradu_n (0.3, 0.4)) as [psl | msg] eqn:E;
      [| discriminate].
    exact (PSL_loop_returns _ _ _ _ _ _ E).
  - intros H. unfold pointEval. cbv zeta.
    rewrite (PSL_sum _ _ _ H), (PDL_sum _ _ _ H). simpl. eexists. reflexivity.
  - intros e H. unfold pointEval in H. cbv zeta in H.
    destruct (PSL mesh dotgradu_n (0.3, 0.4)); [| discriminate].
    destruct (PDL mesh pointEval_u (0.3, 0.4)); [| discriminate].
    simpl in H. injection H as <-. apply Rabs_pos.
Qed.

Lemma pointEval_returns_a_nonnegative_error_witness :
  exists e : R, pointEval Fixture.square = Return e /\ 0 <= e.
Proof.
  pose proof (pointEval_returns_a_nonnegative_error Fixture.square) as [H1 H2].
  destruct (proj2 H1 Fixture_square_off_midpoints) as [e He].
  exists e. split; [exact He | exact (H2 e He)].
Defined.

(** ** The cutoff function on its three zones *)

Lemma constant_neg : constant < 0.
Proof.
  pose proof sqrt2_bounds as B. pose proof PI_RGT_0 as HP.
  unfold constant, M_PI, Rdiv.
  assert (/ (0.5 * sqrt 2 - 1.0) < 0) by (apply Rinv_lt_0_compat; lra).
  nra.
Qed.

(** On the closed annulus the argument of the cosine runs from pi/2, at the
    inner radius, to 0, at the outer radius. *)
Lemma annulus_angle (r : R) :
  0.25 * sqrt 2 <= r <= 0.5 ->
  0 <= constant * (r - 0.5) <= PI / 2.
Proof.
  intros [H1 H2]. pose proof sqrt2_bounds as B. pose proof PI_RGT_0 as HP.
  set (d := 1 - 0.5 * sqrt 2). assert (Hd : 0 < d) by (unfold d; lra).
  set (t := (0.5 - r) / d).
  assert (Ht : t * d = 0.5 - r) by (unfold t; field; lra).
  assert (E : constant * (r - 0.5) = PI * t).
  { unfold constant, M_PI, t, d. decimals. field. split; lra. }
  assert (T0 : 0 <= t) by nra.
  assert (T1 : t <= 1 / 2) by (unfold d in *; nra).
  rewrite E. split; nra.
Qed.

Lemma annulus_angle_strict (r : R) :
  0.25 * sqrt 2 < r < 0.5 ->
  0 < constant * (r - 0.5) < PI / 2.
Proof.
  intros [H1 H2]. pose proof constant_neg as C.
  pose proof constant_inner as I.
  split; [nra|]. rewrite <- I. nra.
Qed.

Lemma Psi_value (y gradPsi : Vector2d) (laplPsi : R) :
  fst (Psi y gradPsi laplPsi) = fst (fst (Psi_body y gradPsi laplPsi)).
Proof.
  unfold Psi. destruct (Psi_body y gradPsi laplPsi) as [[v g] l]. reflexivity.
Qed.

Lemma Psi_value_annulus (y gradPsi : Vector2d) (laplPsi : R) :
  0.25 * sqrt 2 < norm (y -v half) < 0.5 ->
  fst (Psi y gradPsi laplPsi) = Psi_profile (norm (y -v half)).
Proof.
  intros H. rewrite Psi_value, (Psi_body_annulus _ _ _ H). reflexivity.
Qed.

(** The three zones of a point. *)
Lemma zone_cases (r : R) :
  r <= 0.25 * sqrt 2 \/ 0.25 * sqrt 2 < r < 0.5 \/ r >= 0.5.
Proof.
  destruct (Rle_dec r (0.25 * sqrt 2)); [left; assumption|].
  destruct (Rge_dec r 0.5); [right; right; assumption|].
  right; left; lra.
Qed.

(** The value returned by [Psi] lies in [0,1]: it is 0 on the inner disk, 1
    from the radius 0.5 on, and strictly between the two on the annulus. *)
Theorem Psi_value_range (y gradPsi : Vector2d) (laplPsi : R) :
  0 <= fst (Psi y gradPsi laplPsi) <= 1
  /\ (norm (y -v half) <= 0.25 * sqrt 2 -> fst (Psi y gradPsi laplPsi) = 0)
  /\ (norm (y -v half) >= 0.5 -> fst (Psi y gradPsi laplPsi) = 1)
  /\ (0.25 * sqrt 2 < norm (y -v half) < 0.5 ->
      0 < fst (Psi y gradPsi laplPsi) < 1).
Proof.
  assert (In : norm (y -v half) <= 0.25 * sqrt 2 -> fst (Psi y gradPsi laplPsi) = 0).
  { intros H. rewrite Psi_value, (Psi_body_inner _ _ _ H). simpl. lra. }
  assert (Out : norm (y -v half) >= 0.5 -> fst (Psi y gradPsi laplPsi) = 1).
  { intros H. rewrite Psi_value, (Psi_body_outer _ _ _ H). simpl. lra. }
  assert (An : 0.25 * sqrt 2 < norm (y -v half) < 0.5 ->
               0 < fst (Psi y gradPsi laplPsi) < 1).
  { intros H. rewrite (Psi_value_annulus _ _ _ H). unfold Psi_profile.
    destruct (annulus_angle_strict _ H) as [A0 A1].
    set (a := constant * (norm (y -v half) - 0.5)) in *.
    pose proof PI_RGT_0 as HP.
    assert (C0 : 0 < cos a) by (apply cos_gt_0; lra).
    assert (S0 : 0 < sin a) by (apply sin_gt_0; lra).
    pose proof (sin2_cos2 a) as SC. unfold Rsqr in SC. nra. }
  split; [| split; [exact In | split; [exact Out | exact An]]].
  destruct (zone_cases (norm (y -v half))) as [H | [H | H]].
  - rewrite (In H). lra.
  - specialize (An H). lra.
  - rewrite (Out H). lra.
Qed.

Lemma norm_annulus_point : 0.25 * sqrt 2 < norm ((0.9, 0.5) -v half) < 0.5.
Proof.
  pose proof sqrt2_bounds as B. pose proof sqrt2_sq as S.
  assert (E : norm ((0.9, 0.5) -v half) = 0.4).
  { unfold norm, vsub, half; simpl. apply sqrt_eq_of_sq; lra. }
  rewrite E. split; nra.
Qed.

Lemma Psi_value_range_witness :
  fst (Psi half (0, 0) 0) = 0
  /\ fst (Psi (1, 0.5) (0, 0) 0) = 1
  /\ 0 < fst (Psi (0.9, 0.5) (0, 0) 0) < 1.
Proof.
  split; [| split].
  - apply (proj1 (proj2 (Psi_value_range half (0, 0) 0))).
    pose proof sqrt2_bounds. rewrite norm_centre. lra.
  - apply (proj1 (proj2 (proj2 (Psi_value_range (1, 0.5) (0, 0) 0)))).
    rewrite norm_outer_radius. lra.
  - apply (proj2 (proj2 (proj2 (Psi_value_range (0.9, 0.5) (0, 0) 0)))).
    exact norm_annulus_point.
Defined.

(** The value returned by [Psi] does not decrease with the distance from
    the centre of the square. *)
Theorem Psi_monotone_in_distance (y1 y2 g1 g2 : Vector2d) (l1 l2 : R) :
  norm (y1 -v half) <= norm (y2 -v half) ->
  fst (Psi y1 g1 l1) <= fst (Psi y2 g2 l2).
Proof.
  intros H.
  destruct (Psi_value_range y1 g1 l1) as [R1 [In1 [Out1 An1]]].
  destruct (Psi_value_range y2 g2 l2) as [R2 [In2 [Out2 An2]]].
  destruct (zone_cases (norm (y1 -v half))) as [Z1 | [Z1 | Z1]].
  - rewrite (In1 Z1). lra.
  - destruct (zone_cases (norm (y2 -v half))) as [Z2 | [Z2 | Z2]].
    + lra.
    + rewrite (Psi_value_annulus _ _ _ Z1), (Psi_value_annulus _ _ _ Z2).
      unfold Psi_profile.
      destruct (annulus_angle_strict _ Z1) as [A0 A1].
      destruct (annulus_angle_strict _ Z2) as [B0 B1].
      pose proof constant_neg as C. pose proof PI_RGT_0 as HP.
      set (a := constant * (norm (y1 -v half) - 0.5)) in *.
      set (b := constant * (norm (y2 -v half) - 0.5)) in *.
      assert (Hba : b <= a) by (unfold a, b; nra).
      assert (Hc : cos a <= cos b) by (apply cos_decr_1; lra).
      assert (0 < cos a) by (apply cos_gt_0; lra).
      nra.
    + rewrite (Out2 Z2). lra.
  - assert (Z2 : norm (y2 -v half) >= 0.5) by lra.
    rewrite (Out1 Z1), (Out2 Z2). lra.
Qed.

Lemma Psi_monotone_in_distance_witness :
  fst (Psi (0.9, 0.5) (0, 0) 0) <= fst (Psi (1, 0.5) (0, 0) 0).
Proof.
  apply (Psi_monotone_in_distance (0.9, 0.5) (1, 0.5) (0, 0) (0, 0) 0 0).
  pose proof norm_annulus_point. rewrite norm_outer_radius. lra.
Defined.

(** ** The derivatives that the body of [Psi] computes *)

Lemma derivable_pt_lim_eq (f : R -> R) (x l l' : R) :
  l = l' -> derivable_pt_lim f x l -> derivable_pt_lim f x l'.
Proof. intros ->. exact (fun H => H). Qed.

Lemma angle_derivable (r : R) :
  derivable_pt_lim (fun r => constant * (r - 0.5)) r constant.
Proof.
  apply derivable_pt_lim_ext
    with (f := mult_real_fct constant (id - fct_cte 0.5)%F);
    [intros z; reflexivity|].
  apply derivable_pt_lim_eq with (l := constant * (1 - 0)); [ring|].
  apply derivable_pt_lim_scal, derivable_pt_lim_minus;
    [apply derivable_pt_lim_id | apply derivable_pt_lim_const].
Qed.

Lemma cos_angle_derivable (r : R) :
  derivable_pt_lim (fun r => cos (constant * (r - 0.5))) r
    (- sin (constant * (r - 0.5)) * constant).
Proof.
  apply derivable_pt_lim_ext
    with (f := comp cos (fun r => constant * (r - 0.5)));
    [intros z; reflexivity|].
  apply derivable_pt_lim_comp; [apply angle_derivable | apply derivable_pt_lim_cos].
Qed.

Lemma sin_angle_derivable (r : R) :
  derivable_pt_lim (fun r => sin (constant * (r - 0.5))) r
    (cos (constant * (r - 0.5)) * constant).
Proof.
  apply derivable_pt_lim_ext
    with (f := comp sin (fun r => constant * (r - 0.5)));
    [intros z; reflexivity|].
  apply derivable_pt_lim_comp; [apply angle_derivable | apply derivable_pt_lim_sin].
Qed.

Lemma Psi_profile_derivable (r : R) :
  derivable_pt_lim Psi_profile r (Psi_profile_d1 r).
Proof.
  apply derivable_pt_lim_ext
    with (f := ((fun r => cos (constant * (r - 0.5)))
                * (fun r => cos (constant * (r - 0.5))))%F);
    [intros z; reflexivity|].
  eapply derivable_pt_lim_eq;
    [| apply derivable_pt_lim_mult; apply cos_angle_derivable].
  unfold Psi_profile_d1. decimals. field.
Qed.

Lemma Psi_profile_d1_derivable (r : R) :
  derivable_pt_lim Psi_profile_d1 r (Psi_profile_d2 r).
Proof.
  apply derivable_pt_lim_ext
    with (f := mult_real_fct (- (2 * constant))
                 ((fun r => cos (constant * (r - 0.5)))
                  * (fun r => sin (constant * (r - 0.5))))%F).
  - intros z. unfold mult_real_fct, mult_fct, Psi_profile_d1. decimals. field.
  - eapply derivable_pt_lim_eq;
      [| apply derivable_pt_lim_scal, derivable_pt_lim_mult;
         [apply cos_angle_derivable | apply sin_angle_derivable]].
    unfold Psi_profile_d2. ring.
Qed.

Lemma norm_sq (a : Vector2d) : norm a * norm a = dot a a.
Proof.
  unfold norm, dot. apply sqrt_sqrt.
  assert (0 <= fst a * fst a) by apply Rle_0_sqr.
  assert (0 <= snd a * snd a) by apply Rle_0_sqr. lra.
Qed.

Lemma Psi_annulus_radial (y : Vector2d) :
  0 < norm (y -v half) ->
  Psi_annulus y
  = (Psi_profile (norm (y -v half)),
     (Psi_profile_d1 (norm (y -v half)) / norm (y -v half)) *v (y -v half),
     Psi_profile_d2 (norm (y -v half))
     + Psi_profile_d1 (norm (y -v half)) / norm (y -v half)).
Proof.
  intros P. unfold Psi_annulus, Psi_profile, Psi_profile_d1, Psi_profile_d2.
  cbv zeta. rewrite <- (norm_sq (y -v half)).
  set (r := norm (y -v half)) in *.
  set (a := constant * (r - 0.5)).
  apply pair_equal_spec; split; [apply pair_equal_spec; split|].
  - reflexivity.
  - f_equal. decimals. field. lra.
  - decimals. field. lra.
Qed.

(** On the annulus the three quantities that the body of [Psi] computes
    belong to one radial profile [f(r) = cos^2 (c (r - 0.5))]: the value is
    [f(r)], the gradient is [f'(r) (y - centre) / r] and the Laplacian is
    [f''(r) + f'(r) / r], where [f'] and [f''] are the derivatives of [f]
    and of [f']. *)
Theorem Psi_body_is_radial_on_the_annulus (y gradPsi : Vector2d) (laplPsi : R) :
  0.25 * sqrt 2 < norm (y -v half) < 0.5 ->
  Psi_body y gradPsi laplPsi
  = (Psi_profile (norm (y -v half)),
     (Psi_profile_d1 (norm (y -v half)) / norm (y -v half)) *v (y -v half),
     Psi_profile_d2 (norm (y -v half))
     + Psi_profile_d1 (norm (y -v half)) / norm (y -v half))
  /\ derivable_pt_lim Psi_profile (norm (y -v half))
       (Psi_profile_d1 (norm (y -v half)))
  /\ derivable_pt_lim Psi_profile_d1 (norm (y -v half))
       (Psi_profile_d2 (norm (y -v half))).
Proof.
  intros H. pose proof sqrt2_bounds as B.
  split; [| split; [apply Psi_profile_derivable | apply Psi_profile_d1_derivable]].
  rewrite (Psi_body_annulus _ _ _ H). apply Psi_annulus_radial. lra.
Qed.

Lemma Psi_body_is_radial_on_the_annulus_witness :
  Psi_body (0.9, 0.5) (0, 0) 0
  = (Psi_profile (norm ((0.9, 0.5) -v half)),
     (Psi_profile_d1 (norm ((0.9, 0.5) -v half)) / norm ((0.9, 0.5) -v half))
       *v ((0.9, 0.5) -v half),
     Psi_profile_d2 (norm ((0.9, 0.5) -v half))
     + Psi_profile_d1 (norm ((0.9, 0.5) -v half)) / norm ((0.9, 0.5) -v half)).
Proof.
  exact (proj1 (Psi_body_is_radial_on_the_annulus (0.9, 0.5) (0, 0) 0
                  norm_annulus_point)).
Defined.

(** The Laplacian is not continuous across the two zone boundaries: the
    annulus formula gives [2 c^2] at the inner radius and [-2 c^2] at the
    radius 0.5, where the body of [Psi] takes 0 from the constant zones. *)
Theorem Psi_laplacian_jumps (y gradPsi : Vector2d) (laplPsi : R) :
  0 < 2 * constant * constant
  /\ (norm (y -v half) = 0.25 * sqrt 2 ->
      snd (Psi_annulus y) = 2 * constant * constant
      /\ snd (Psi_body y gradPsi laplPsi) = 0)
  /\ (norm (y -v half) = 0.5 ->
      snd (Psi_annulus y) = - (2 * constant * constant)
      /\ snd (Psi_body y gradPsi laplPsi) = 0).
Proof.
  pose proof constant_neg as C. pose proof sqrt2_bounds as B.
  split; [nra|]. split; intros Hr.
  - split.
    + rewrite Psi_annulus_radial by lra. simpl.
      unfold Psi_profile_d1, Psi_profile_d2.
      rewrite Hr, constant_inner, cos_PI2, sin_PI2. decimals. field. lra.
    + rewrite Psi_body_inner by lra. simpl. lra.
  - split.
    + rewrite Psi_annulus_radial by lra. simpl.
      unfold Psi_profile_d1, Psi_profile_d2. rewrite Hr.
      replace (constant * (0.5 - 0.5)) with 0 by lra.
      rewrite cos_0, sin_0. decimals. field.
    + rewrite Psi_body_outer by lra. simpl. lra.
Qed.

Lemma Psi_laplacian_jumps_witness :
  (snd (Psi_annulus (0.75, 0.75)) = 2 * constant * constant
   /\ snd (Psi_body (0.75, 0.75) (0, 0) 0) = 0)
  /\ (snd (Psi_annulus (1, 0.5)) = - (2 * constant * constant)
      /\ snd (Psi_body (1, 0.5) (0, 0) 0) = 0).
Proof.
  split.
  - exact (proj1 (proj2 (Psi_laplacian_jumps (0.75, 0.75) (0, 0) 0))
             norm_inner_radius).
  - exact (proj2 (proj2 (Psi_laplacian_jumps (1, 0.5) (0, 0) 0))
             norm_outer_radius).
Defined.

(** ** The regularized functional: when it returns and what it returns *)

Lemma Jstar_quad_loop_cons st (u : Vector2d -> R) (x : Vector2d)
    (zeta : list Vector2d) (w_ref gram_dets : list R) (i l : nat)
    (rest : list nat) (val : R) :
  Jstar_quad_loop st u x zeta w_ref gram_dets i (l :: rest) val
  = (gg <- gradG x (nth l zeta (0, 0)) ;;
     g <- G x (nth l zeta (0, 0)) ;;
     Jstar_quad_loop st u x zeta w_ref gram_dets i rest
       (val - nth l w_ref 0 * u (nth l zeta (0, 0))
              * (2 * dot gg (fresh_Vector2d (st i l))
                 + g * fresh_VectorXd (st i l) l)
              * nth l gram_dets 0)).
Proof.
  simpl. unfold Psi.
  destruct (Psi_body (nth l zeta (0, 0)) (fresh_Vector2d (st i l))
              (fresh_VectorXd (st i l) l)) as [[v g] lp].
  reflexivity.
Qed.

Lemma Jstar_quad_loop_returns_iff st (u : Vector2d -> R) (x : Vector2d)
    (zeta : list Vector2d) (w_ref gram_dets : list R) (i : nat) (ls : list nat) :
  forall val : R,
    (exists r : R, Jstar_quad_loop st u x zeta w_ref gram_dets i ls val = Return r)
    <-> Forall (fun l => x <> nth l zeta (0, 0)) ls.
Proof.
  induction ls as [| l rest IH]; intros val.
  - split; [constructor | intros _; eexists; reflexivity].
  - rewrite Jstar_quad_loop_cons. split.
    + intros [r H]. unfold gradG, G in H.
      destruct (vneq x (nth l zeta (0, 0))) eqn:Ev; simpl in H; [| discriminate].
      constructor; [apply vneq_true; exact Ev|].
      eapply IH. exists r. exact H.
    + intros H. inversion H as [| ? ? Hl Hrest]; subst.
      rewrite (gradG_distinct _ _ Hl), (G_distinct _ _ Hl). simpl.
      apply IH. exact Hrest.
Qed.

Lemma Jstar_cell_loop_returns_iff st (zeta_ref : list Vector2d) (w_ref : list R)
    (P : nat) (u : Vector2d -> R) (x : Vector2d) (cells : list Entity) :
  forall (i : nat) (val : R),
    (exists r : R, Jstar_cell_loop st zeta_ref w_ref P u x i cells val = Return r)
    <-> Jstar_defined zeta_ref P cells x.
Proof.
  unfold Jstar_defined.
  induction cells as [| e rest IH]; intros i val.
  - split; [constructor | intros _; eexists; reflexivity].
  - simpl. split.
    + intros [r H].
      destruct (RefEl e) eqn:Er; simpl in H; try discriminate.
      destruct (Geometry_ptr e) as [geo |] eqn:Eg; [| discriminate].
      destruct (Jstar_quad_loop st u x (Global geo zeta_ref) w_ref
                  (IntegrationElement geo zeta_ref) i (seq 0 P) val)
        as [val' | msg] eqn:Eq; simpl in H; [| discriminate].
      constructor.
      * split; [exact Er|]. exists geo. split; [exact Eg|].
        apply (Jstar_quad_loop_returns_iff st u x _ w_ref
                 (IntegrationElement geo zeta_ref) i _ val).
        exists val'. exact Eq.
      * apply (IH (S i) val'). exists r. exact H.
    + intros H. inversion H as [| ? ? [Er [geo [Eg Hq]]] Hrest]; subst.
      rewrite Er, Eg. simpl.
      destruct (proj2 (Jstar_quad_loop_returns_iff st u x _ w_ref
                         (IntegrationElement geo zeta_ref) i _ val) Hq)
        as [val' Eq].
      rewrite Eq. simpl. apply IH. exact Hrest.
Qed.

(** [Jstar] returns a number exactly when every cell of the mesh is a
    triangle with a geometry and [x] is none of the mapped quadrature
    points; a cell of another shape or a quadrature point equal to [x]
    aborts the call, whatever [u] is. *)
Theorem Jstar_returns_iff qr st (fe_space : FeSpaceLagrangeO1)
    (u : Vector2d -> R) (x : Vector2d) :
  (exists r : R, Jstar qr st fe_space u x = Return r)
  <-> Jstar_defined (Points qr) (NumPoints qr)
        (Entities (FeSpace_Mesh fe_space) 0) x.
Proof. unfold Jstar. apply Jstar_cell_loop_returns_iff. Qed.

Lemma Fixture_Jstar_defined :
  Jstar_defined (Points Fixture.midpoint_rule) (NumPoints Fixture.midpoint_rule)
    (Entities (FeSpace_Mesh Fixture.fe_space) 0) half.
Proof.
  unfold Jstar_defined; simpl. repeat constructor.
  - exists Fixture.lower. split; [reflexivity|]. repeat constructor. simpl.
    change ((0, 0) +v 1 / 3 *v ((1, 0) -v (0, 0)) +v 1 / 3 *v ((1, 1) -v (0, 0)))
      with (GlobalPoint Fixture.lower (1 / 3, 1 / 3)).
    rewrite Fixture_lower_point. exact half_off_lower.
  - exists Fixture.upper. split; [reflexivity|]. repeat constructor. simpl.
    change ((0, 0) +v 1 / 3 *v ((1, 1) -v (0, 0)) +v 1 / 3 *v ((0, 1) -v (0, 0)))
      with (GlobalPoint Fixture.upper (1 / 3, 1 / 3)).
    rewrite Fixture_upper_point. exact half_off_upper.
Qed.

Lemma Jstar_returns_iff_witness :
  exists r : R,
    Jstar Fixture.midpoint_rule Fixture.stale Fixture.fe_space
      Fixture.unit_field half = Return r.
Proof.
  exact (proj2 (Jstar_returns_iff Fixture.midpoint_rule Fixture.stale
                  Fixture.fe_space Fixture.unit_field half)
           Fixture_Jstar_defined).
Defined.

(** On a mesh with a cell that is not a triangle [Jstar] never returns a
    number. *)
Theorem Jstar_needs_triangles qr st (fe_space : FeSpaceLagrangeO1)
    (u : Vector2d -> R) (x : Vector2d) :
  Exists (fun e => RefEl e <> kTria) (Entities (FeSpace_Mesh fe_space) 0) ->
  forall r : R, Jstar qr st fe_space u x <> Return r.
Proof.
  intros H r. unfold Jstar. apply Jstar_cell_loop_not_tria. exact H.
Qed.

Lemma Jstar_needs_triangles_witness :
  exists msg : string,
    Jstar Fixture.midpoint_rule Fixture.stale {| FeSpace_Mesh := one_quad_mesh |}
      Fixture.unit_field half = Abort msg.
Proof.
  assert (H : Exists (fun e => RefEl e <> kTria)
                (Entities (FeSpace_Mesh {| FeSpace_Mesh := one_quad_mesh |}) 0))
    by (simpl; left; simpl; discriminate).
  pose proof (Jstar_needs_triangles Fixture.midpoint_rule Fixture.stale
                {| FeSpace_Mesh := one_quad_mesh |} Fixture.unit_field half H) as N.
  destruct (Jstar Fixture.midpoint_rule Fixture.stale
              {| FeSpace_Mesh := one_quad_mesh |} Fixture.unit_field half)
    as [r | msg].
  - contradiction (N r). reflexivity.
  - exists msg. reflexivity.
Defined.

Lemma Jstar_quad_loop_zeros st (u : Vector2d -> R) (x : Vector2d)
    (zeta : list Vector2d) (w_ref gram_dets : list R) (i : nat) (ls : list nat) :
  holds_zeros st ->
  forall val r : R,
    Jstar_quad_loop st u x zeta w_ref gram_dets i ls val = Return r -> r = val.
Proof.
  intros Z. induction ls as [| l rest IH]; intros val r H.
  - simpl in H. injection H as <-. reflexivity.
  - rewrite Jstar_quad_loop_cons in H.
    destruct (gradG x (nth l zeta (0, 0))) as [gg | m]; simpl in H; [| discriminate].
    destruct (G x (nth l zeta (0, 0))) as [g | m]; simpl in H; [| discriminate].
    rewrite (IH _ _ H). destruct (Z i l) as [-> ->]. rewrite dot_0_r. ring.
Qed.

Lemma Jstar_cell_loop_zeros st (zeta_ref : list Vector2d) (w_ref : list R)
    (P : nat) (u : Vector2d -> R) (x : Vector2d) (cells : list Entity) :
  holds_zeros st ->
  forall (i : nat) (val r : R),
    Jstar_cell_loop st zeta_ref w_ref P u x i cells val = Return r -> r = val.
Proof.
  intros Z. induction cells as [| e rest IH]; intros i val r H.
  - simpl in H. injection H as <-. reflexivity.
  - simpl in H.
    destruct (RefElType_eqb (RefEl e) kTria); simpl in H; [| discriminate].
    destruct (Geometry_ptr e) as [geo |]; [| discriminate].
    destruct (Jstar_quad_loop st u x (Global geo zeta_ref) w_ref
                (IntegrationElement geo zeta_ref) i (seq 0 P) val)
      as [val' | msg] eqn:Eq; simpl in H; [| discriminate].
    rewrite (IH _ _ _ H). exact (Jstar_quad_loop_zeros _ _ _ _ _ _ _ _ Z _ _ Eq).
Qed.

(** When the uninitialized objects happen to hold zeros, [Jstar] returns 0
    whenever it returns, for every mesh, every [u] and every [x]: neither
    the field nor the cutoff is seen in the result. *)
Theorem Jstar_returns_zero_on_zeroed_storage qr st
    (fe_space : FeSpaceLagrangeO1) (u : Vector2d -> R) (x : Vector2d) (r : R) :
  holds_zeros st ->
  Jstar qr st fe_space u x = Return r ->
  r = 0.
Proof.
  intros Z H. unfold Jstar in H.
  rewrite (Jstar_cell_loop_zeros _ _ _ _ _ _ _ Z _ _ _ H). lra.
Qed.

Lemma zeroed_holds_zeros : holds_zeros zeroed.
Proof. intros i l. split; reflexivity. Qed.

Lemma Jstar_returns_zero_on_zeroed_storage_witness :
  exists r : R,
    Jstar Fixture.midpoint_rule zeroed Fixture.fe_space Fixture.unit_field half
    = Return r
    /\ r = 0.
Proof.
  exact (ex_intro _ _
           (conj (Jstar_on_Fixture zeroed Fixture.unit_field)
                 (Jstar_returns_zero_on_zeroed_storage Fixture.midpoint_rule
                    zeroed Fixture.fe_space Fixture.unit_field half _
                    zeroed_holds_zeros
                    (Jstar_on_Fixture zeroed Fixture.unit_field)))).
Defined.

Lemma Jstar_quad_loop_linear st (u1 u2 : Vector2d -> R) (alpha beta : R)
    (x : Vector2d) (zeta : list Vector2d) (w_ref gram_dets : list R) (i : nat)
    (ls : list nat) :
  forall a1 a2 : R,
    Jstar_quad_loop st (fun y => alpha * u1 y + beta * u2 y) x zeta w_ref
      gram_dets i ls (alpha * a1 + beta * a2)
    = (s1 <- Jstar_quad_loop st u1 x zeta w_ref gram_dets i ls a1 ;;
       s2 <- Jstar_quad_loop st u2 x zeta w_ref gram_dets i ls a2 ;;
       Return (alpha * s1 + beta * s2)).
Proof.
  induction ls as [| l rest IH]; intros a1 a2; [reflexivity|].
  rewrite !Jstar_quad_loop_cons.
  destruct (gradG x (nth l zeta (0, 0))) as [gg | m]; simpl; [| reflexivity].
  destruct (G x (nth l zeta (0, 0))) as [g | m]; simpl; [| reflexivity].
  rewrite <- IH. f_equal. ring.
Qed.

Lemma Jstar_cell_loop_linear st (zeta_ref : list Vector2d) (w_ref : list R)
    (P : nat) (u1 u2 : Vector2d -> R) (alpha beta : R) (x : Vector2d)
    (cells : list Entity) :
  forall (i : nat) (a1 a2 : R),
    Jstar_cell_loop st zeta_ref w_ref P (fun y => alpha * u1 y + beta * u2 y) x
      i cells (alpha * a1 + beta * a2)
    = (s1 <- Jstar_cell_loop st zeta_ref w_ref P u1 x i cells a1 ;;
       s2 <- Jstar_cell_loop st zeta_ref w_ref P u2 x i cells a2 ;;
       Return (alpha * s1 + beta * s2)).
Proof.
  induction cells as [| e rest IH]; intros i a1 a2; [reflexivity|].
  simpl.
  destruct (RefElType_eqb (RefEl e) kTria); simpl; [| reflexivity].
  destruct (Geometry_ptr e) as [geo |]; [| reflexivity].
  rewrite Jstar_quad_loop_linear.
  destruct (Jstar_quad_loop st u1 x (Global geo zeta_ref) w_ref
              (IntegrationElement geo zeta_ref) i (seq 0 P) a1)
    as [q1 | m1] eqn:E1; simpl; [| reflexivity].
  destruct (Jstar_quad_loop st u2 x (Global geo zeta_ref) w_ref
              (IntegrationElement geo zeta_ref) i (seq 0 P) a2)
    as [q2 | m2] eqn:E2; simpl.
  - apply IH.
  - exfalso.
    assert (D : Forall (fun l => x <> nth l (Global geo zeta_ref) (0, 0)) (seq 0 P)).
    { apply (Jstar_quad_loop_returns_iff st u1 x _ w_ref
               (IntegrationElement geo zeta_ref) i _ a1).
      exists q1. exact E1. }
    destruct (proj2 (Jstar_quad_loop_returns_iff st u2 x _ w_ref
                       (IntegrationElement geo zeta_ref) i _ a2) D) as [q2 E2'].
    congruence.
Qed.

(** [Jstar] is linear in the field [u]: the call on a linear combination of
    two fields returns the combination of what the two separate calls
    return, and is aborted where they are. *)
Theorem Jstar_linear_in_u qr st (fe_space : FeSpaceLagrangeO1)
    (u1 u2 : Vector2d -> R) (alpha beta : R) (x : Vector2d) :
  Jstar qr st fe_space (fun y => alpha * u1 y + beta * u2 y) x
  = (s1 <- Jstar qr st fe_space u1 x ;;
     s2 <- Jstar qr st fe_space u2 x ;;
     Return (alpha * s1 + beta * s2)).
Proof.
  unfold Jstar. cbv zeta. rewrite <- Jstar_cell_loop_linear. f_equal. lra.
Qed.

(** ** The driver's region and the zero zone of the cutoff *)

Lemma norm_triangle (a b : Vector2d) : norm (a +v b) <= norm a + norm b.
Proof.
  pose proof (norm_nonneg a) as Na. pose proof (norm_nonneg b) as Nb.
  pose proof (norm_sq a) as Sa. pose proof (norm_sq b) as Sb.
  destruct a as [a0 a1], b as [b0 b1]. unfold dot in Sa, Sb; simpl in Sa, Sb.
  set (na := norm (a0, a1)) in *. set (nb := norm (b0, b1)) in *.
  assert (CS : a0 * b0 + a1 * b1 <= na * nb).
  { destruct (Rle_dec (a0 * b0 + a1 * b1) (na * nb)) as [L | L]; [exact L|].
    exfalso.
    assert (P : 0 <= na * nb) by (apply Rmult_le_pos; assumption).
    assert (Q : (na * nb) * (na * nb)
                = (a0 * a0 + a1 * a1) * (b0 * b0 + b1 * b1))
      by (rewrite <- Sa, <- Sb; ring).
    assert (D : 0 <= (a0 * b1 - a1 * b0) * (a0 * b1 - a1 * b0))
      by apply Rle_0_sqr.
    nra. }
  unfold norm at 1, vadd; simpl. apply sqrt_le_of_sq; nra.
Qed.

(** Around every point that the driver accepts the cutoff vanishes: when
    [x] is within 0.25 of the centre, [stab_pointEval] writes no diagnostic,
    and at every [y] within [0.25 (sqrt 2 - 1)] of [x] the body of [Psi]
    takes the value 0, the gradient (0,0) and the Laplacian 0. *)
Theorem cutoff_vanishes_around_accepted_points qr st
    (fe_space : FeSpaceLagrangeO1) (u : Vector2d -> R) (x y gradPsi : Vector2d)
    (laplPsi : R) :
  norm (x -v half) <= 0.25 ->
  norm (y -v x) <= 0.25 * (sqrt 2 - 1) ->
  fst (stab_pointEval qr st fe_space u x) = []
  /\ Psi_body y gradPsi laplPsi = (0.0, (0.0, 0.0), 0.0)
  /\ fst (Psi y gradPsi laplPsi) = 0.
Proof.
  intros Hx Hy.
  assert (T : norm (y -v half) <= 0.25 * sqrt 2).
  { replace (y -v half) with ((y -v x) +v (x -v half)).
    - pose proof (norm_triangle (y -v x) (x -v half)). lra.
    - unfold vadd, vsub; simpl. apply pair_equal_spec; split; ring. }
  split; [rewrite (stab_pointEval_inside _ _ _ _ _ Hx); reflexivity|].
  split; [apply Psi_body_inner; exact T|].
  rewrite Psi_value, (Psi_body_inner _ _ _ T). simpl. lra.
Qed.

Lemma norm_accepted_point : norm ((0.7, 0.5) -v half) = 0.2.
Proof. unfold norm, vsub, half; simpl. apply sqrt_eq_of_sq; lra. Qed.

Lemma norm_near_accepted_point : norm ((0.8, 0.5) -v (0.7, 0.5)) = 0.1.
Proof. unfold norm, vsub; simpl. apply sqrt_eq_of_sq; lra. Qed.

Lemma cutoff_vanishes_around_accepted_points_witness :
  fst (stab_pointEval Fixture.midpoint_rule Fixture.stale Fixture.fe_space
         Fixture.unit_field (0.7, 0.5)) = []
  /\ Psi_body (0.8, 0.5) (0, 0) 0 = (0.0, (0.0, 0.0), 0.0)
  /\ fst (Psi (0.8, 0.5) (0, 0) 0) = 0.
Proof.
  apply (cutoff_vanishes_around_accepted_points Fixture.midpoint_rule
           Fixture.stale Fixture.fe_space Fixture.unit_field
           (0.7, 0.5) (0.8, 0.5) (0, 0) 0).
  - rewrite norm_accepted_point. lra.
  - pose proof sqrt2_bounds as B. pose proof sqrt2_sq as S.
    rewrite norm_near_accepted_point. nra.
Defined.
